(** * Mapper chains: a shallow embedding of sdk/internal-shared/mapper/chain.go

    The development follows the Go file top to bottom: the data the
    resolver works on, [ChainTarget], [Func.Chain] with its recursive
    search [Func.chain], the predicate-driven [Func.ChainInputSet] with
    [Func.inputSet], and finally [Chain.Out] and [Chain.Call].

    Go maps that the code mutates in place ([chainSet], [pendingSet],
    [visited]) are threaded explicitly as state, so that what a failed
    recursive call leaves behind is visible to its caller exactly as in
    the source.  Recursion is bounded by a fuel argument; the theorems on
    termination show how much fuel is always enough. *)

From stdpp Require Import gmap strings list fin_maps.

(** ** Data model *)

(** The [Type] interface: [Key()] is the comparable identity used as a
    map key, [String()] the display name. *)
Record Type_ := { Key : nat; Name : string }.

(** A Go [interface{}] value: the nil interface, or a dynamic value whose
    type has the given key.  [reflect.ValueOf(v).IsValid()] is false
    exactly for the nil interface. *)
Inductive iface := Nil | Val (ty : nat) (data : nat).

Definition IsValid (v : iface) : bool :=
  match v with Nil => false | Val _ _ => true end.

(** A [*Func].  [Addr] stands for the pointer: two registered functions
    with the same signature remain distinct entities. *)
Record Func := {
  Addr : nat;
  Args : list Type_;
  Out : Type_;
  Values : list iface
}.

Global Instance Type__eq_dec : EqDecision Type_.
Proof. solve_decision. Defined.
Global Instance iface_eq_dec : EqDecision iface.
Proof. solve_decision. Defined.
Global Instance Func_eq_dec : EqDecision Func.
Proof. solve_decision. Defined.

Global Instance Type__countable : Countable Type_.
Proof.
  refine (inj_countable' (fun t => (Key t, Name t))
            (fun p => {| Key := p.1; Name := p.2 |}) _).
  by intros [].
Defined.

Global Instance Func_countable : Countable Func.
Proof.
  refine (inj_countable'
            (fun f => (Addr f, Args f, Out f,
                       (fun v => match v with Nil => None | Val k d => Some (k, d) end)
                         <$> Values f))
            (fun p => {| Addr := p.1.1.1; Args := p.1.1.2; Out := p.1.2;
                         Values := (fun o => match o with
                                             | None => Nil
                                             | Some (k, d) => Val k d
                                             end) <$> p.2 |}) _).
  intros [a ar o vs]; simpl. f_equal.
  rewrite <- list_fmap_compose. rewrite <- (list_fmap_id vs) at 2.
  apply list_fmap_ext. by intros _ [] _.
Defined.

(** The [Chain] struct. *)
Record Chain := { funcs : list Func; values : list iface }.

(** What [Func.chain] returns: [([]*Func, error)]. *)
Inductive result := Ok (chain : list Func) | Err (msg : string).

(** What [Func.Chain] returns: a pointer to a [Chain], or an error. *)
Inductive built := Built (c : Chain) | Failed (msg : string).

(** The two pointer sets [Func.chain] mutates while it searches. *)
Record State := { chainSet : gset Func; pendingSet : gset Func }.

(** ** Func.args *)

(** [v] supplies an argument of type [t]: the key of its dynamic type is
    the key of [t]. *)
Definition matches (t : Type_) (v : iface) : bool :=
  match v with Nil => false | Val k _ => bool_decide (k = Key t) end.

Definition keyIn (t : Type_) (l : list Type_) : bool :=
  existsb (fun u => bool_decide (Key u = Key t)) l.

Fixpoint argsLoop (l : list Type_) (vals : list iface) (missing : list Type_)
  : list Type_ :=
  match l with
  | [] => missing
  | arg :: l' =>
      if existsb (matches arg) vals then argsLoop l' vals missing
      else if keyIn arg missing then argsLoop l' vals missing
      else argsLoop l' vals (missing ++ [arg])
  end.

(** Modelled from the spec: [Func.args] (func.go is not among the
    sources), which fills the [missing] map of [Func.Chain] and
    [Func.chain].  For each positional argument not matched by key
    against the type of any value there is one entry; arguments that
    share a key collapse into one.  The entries are listed in
    positional order. *)
Definition Func_args (f : Func) (vals : list iface) : list Type_ :=
  argsLoop (Args f) vals [].

(** ** Func.Chain and Func.chain *)

(** [fmt.Errorf("unable to map to %s", t.String())]. *)
Definition unableToMap (t : Type_) : string :=
  ("unable to map to " +:+ Name t)%string.

(** [mapperByOut[m.Out.Key()] = append(mapperByOut[m.Out.Key()], m)] for
    each mapper in order. *)
Definition mapperIndex (mappers : list Func) : gmap nat (list Func) :=
  foldl (fun idx m => <[Key (Out m) := idx !!! Key (Out m) ++ [m]]> idx)
        ∅ mappers.

Section Search.

(** Go leaves the order in which [range] visits a map unspecified.
    [rangeOrder l] is the order in which a [range] visits the keys [l]
    of a [missing] map; the theorems hold for every [rangeOrder] that
    permutes its argument. *)
Variable rangeOrder : list Type_ → list Type_.

Variable vals : list iface.
Variable mapperByOut : gmap nat (list Func).

Section Loops.
(** The recursive call [m.chain(log, values, mapperByOut, chain,
    chainSet, pendingSet)]; [None] when the fuel is used up. *)
Variable rec : Func → list Func → State → option (State * result).

(** Lines 257-261: is one of the producers already called? *)
Definition called (ms : list Func) (st : State) : bool :=
  existsb (fun m => bool_decide (m ∈ chainSet st)) ms.

(** Lines 265-283: the first producer outside the pending set whose
    own chain can be built. *)
Fixpoint tryMappers (ms : list Func) (chain : list Func) (st : State)
  : option (State * option (list Func)) :=
  match ms with
  | [] => Some (st, None)
  | m :: ms' =>
      if bool_decide (m ∈ pendingSet st) then tryMappers ms' chain st
      else
        match rec m chain st with
        | None => None
        | Some (st', Ok nextChain) => Some (st', Some nextChain)
        | Some (st', Err _) => tryMappers ms' chain st'
        end
  end.

(** Lines 250-287: MISSING_LOOP. *)
Fixpoint missingLoop (ts : list Type_) (chain : list Func) (st : State)
  : option (State * result) :=
  match ts with
  | [] => Some (st, Ok chain)
  | t :: ts' =>
      let ms := mapperByOut !!! Key t in
      if bool_decide (0 < length ms) then
        if called ms st then missingLoop ts' chain st
        else
          match tryMappers ms chain st with
          | None => None
          | Some (st', Some nextChain) => missingLoop ts' nextChain st'
          | Some (st', None) => Some (st', Err (unableToMap t))
          end
      else Some (st, Err (unableToMap t))
  end.
End Loops.

(** Lines 229-290.  The deferred [delete(pendingSet, f)] runs on both
    exits below the point where [f] was added. *)
Fixpoint Func_chain (fuel : nat) (f : Func) (chain : list Func) (st : State)
  : option (State * result) :=
  match fuel with
  | 0 => None
  | S fuel' =>
      let missing := Func_args f vals in
      if bool_decide (length missing = 0) then
        Some ({| chainSet := {[f]} ∪ chainSet st; pendingSet := pendingSet st |},
              Ok (chain ++ [f]))
      else
        let st := {| chainSet := chainSet st;
                     pendingSet := {[f]} ∪ pendingSet st |} in
        match missingLoop (Func_chain fuel') (rangeOrder missing) chain st with
        | None => None
        | Some (st', r) =>
            Some ({| chainSet := chainSet st';
                     pendingSet := pendingSet st' ∖ {[f]} |},
                  match r with
                  | Ok chain' => Ok (chain' ++ [f])
                  | Err e => Err e
                  end)
        end
  end.

End Search.

(** Lines 39-94. *)
Definition Func_Chain (rangeOrder : list Type_ → list Type_) (fuel : nat)
    (f : Func) (mappers : list Func) (vals : list iface) : option built :=
  let vals := vals ++ Values f in
  let missing := Func_args f vals in
  if bool_decide (length missing = 0) then
    Some (Built {| funcs := [f]; values := vals |})
  else
    let mapperByOut := mapperIndex mappers in
    match Func_chain rangeOrder vals mapperByOut fuel f []
            {| chainSet := ∅; pendingSet := ∅ |} with
    | None => None
    | Some (_, Err e) => Some (Failed e)
    | Some (_, Ok chain) => Some (Built {| funcs := chain; values := vals |})
    end.

(** Lines 15-30.  [None] is running out of fuel, [Some None] the nil
    chain. *)
Fixpoint ChainTarget_loop (rangeOrder : list Type_ → list Type_) (fuel : nat)
    (check : Type_ → bool) (ms mappers : list Func) (vals : list iface)
  : option (option Chain) :=
  match ms with
  | [] => Some None
  | m :: ms' =>
      if negb (check (Out m)) then
        ChainTarget_loop rangeOrder fuel check ms' mappers vals
      else
        match Func_Chain rangeOrder fuel m mappers vals with
        | None => None
        | Some (Built chain) => Some (Some chain)
        | Some (Failed _) =>
            ChainTarget_loop rangeOrder fuel check ms' mappers vals
        end
  end.

Definition ChainTarget (rangeOrder : list Type_ → list Type_) (fuel : nat)
    (check : Type_ → bool) (mappers : list Func) (vals : list iface)
  : option (option Chain) :=
  ChainTarget_loop rangeOrder fuel check mappers mappers vals.

(** ** Func.ChainInputSet and Func.inputSet *)

(** Lines 141-157: sort the arguments of [f] into those the caller can
    supply ([pending]) and those a mapper has to produce ([missing]). *)
Fixpoint inputArgs (check : Type_ → bool) (l : list Type_)
    (missing pending : gmap nat Type_) : gmap nat Type_ * gmap nat Type_ :=
  match l with
  | [] => (missing, pending)
  | arg :: l' =>
      let key := Key arg in
      if bool_decide (is_Some (pending !! key)) then
        inputArgs check l' missing pending
      else if negb (check arg) then
        inputArgs check l' (<[Key arg := arg]> missing) pending
      else inputArgs check l' missing (<[key := arg]> pending)
  end.

Section InputSet.
Variable mappers : list Func.
Variable check : Type_ → bool.

Section Loop.
(** The recursive call [m.inputSet(mappers, check, visited, pending)]:
    the [visited] set as the call leaves it and the map it returns
    ([None] for nil); [None] when the fuel is used up. *)
Variable rec : Func → gset Func → gmap nat Type_ →
               option (gset Func * option (gmap nat Type_)).

(** Lines 170-214, followed by the [return nil] of line 224. *)
Fixpoint inputMappers (ms : list Func) (visited : gset Func)
    (missing pending : gmap nat Type_)
  : option (gset Func * option (gmap nat Type_)) :=
  match ms with
  | [] => Some (visited, None)
  | m :: ms' =>
      if bool_decide (m ∈ visited) then
        inputMappers ms' visited missing pending
      else
        let key := Key (Out m) in
        if negb (bool_decide (is_Some (missing !! key))) then
          inputMappers ms' visited missing pending
        else
          match rec m ({[m]} ∪ visited) pending with
          | None => None
          | Some (visited', r) =>
              let visited := visited' ∖ {[m]} in
              match r with
              | None => inputMappers ms' visited missing pending
              | Some result =>
                  let missing := delete key missing in
                  if bool_decide (size missing = 0) then
                    Some (visited, Some result)
                  else inputMappers ms' visited missing result
              end
          end
  end.
End Loop.

(** Lines 128-225.  A nil [input] is the empty map: ranging over it
    copies nothing. *)
Fixpoint Func_inputSet (fuel : nat) (f : Func) (visited : gset Func)
    (input : gmap nat Type_) : option (gset Func * option (gmap nat Type_)) :=
  match fuel with
  | 0 => None
  | S fuel' =>
      let '(missing, pending) := inputArgs check (Args f) ∅ input in
      if bool_decide (size missing = 0) then Some (visited, Some pending)
      else inputMappers (Func_inputSet fuel') mappers visited missing pending
  end.

(** Lines 106-123.  The result slice is filled by ranging over the map
    returned by [inputSet]; [rangeOrder] is the order of that
    iteration.  [Some None] is the nil slice. *)
Definition Func_ChainInputSet (rangeOrder : list Type_ → list Type_)
    (fuel : nat) (f : Func) : option (option (list Type_)) :=
  match Func_inputSet fuel f ∅ ∅ with
  | None => None
  | Some (_, None) => Some None
  | Some (_, Some typeMap) => Some (Some (rangeOrder (snd <$> map_to_list typeMap)))
  end.
End InputSet.

(** ** Chain.Out and Chain.Call *)

(** Lines 303-305: [c.funcs[len(c.funcs)-1].Out]; indexing an empty
    [funcs] panics, which is [None] here. *)
Definition Chain_Out (c : Chain) : option Type_ :=
  Out <$> last (funcs c).

(** What one run of [Chain.Call] leaves behind: the returned pair, the
    chain with its value pool as the call left it, and the functions
    whose [Prepare(...).Call()] was executed, in execution order. *)
Record Called := {
  returned : iface * option string;
  after : Chain;
  executed : list Func
}.

Section Call.
(** [f.Prepare(values...).Call()]: the result and the error (nil is
    [None]) of running [f] on the given pool.  How a function is bound
    and run lies outside chain.go. *)
Variable FuncCall : Func → list iface → iface * option string.

(** Lines 312-322, with [c.funcs] kept for the returned chain. *)
Fixpoint callLoop (all fs : list Func) (result : iface) (vals : list iface)
    (trace : list Func) : Called :=
  match fs with
  | [] => {| returned := (result, None);
             after := {| funcs := all; values := vals |};
             executed := trace |}
  | f :: fs' =>
      let '(result, err) := FuncCall f vals in
      let trace := trace ++ [f] in
      match err with
      | Some e => {| returned := (Nil, Some e);
                     after := {| funcs := all; values := vals |};
                     executed := trace |}
      | None =>
          let vals := if IsValid result then vals ++ [result] else vals in
          callLoop all fs' result vals trace
      end
  end.

(** Lines 309-325. *)
Definition Chain_Call (c : Chain) : Called :=
  callLoop (funcs c) (funcs c) Nil (values c) [].
End Call.

(** ** Specification vocabulary for Chain.Call *)

Section CallSpec.
Variable FuncCall : Func → list iface → iface * option string.

(** [c.values = append(c.values, result)] when the result is valid. *)
Definition push (vals : list iface) (r : iface) : list iface :=
  if IsValid r then vals ++ [r] else vals.

(** The pool once every function of [fs] has run without error,
    starting from [vals]. *)
Fixpoint poolAfter (fs : list Func) (vals : list iface) : list iface :=
  match fs with
  | [] => vals
  | f :: fs' => poolAfter fs' (push vals (FuncCall f vals).1)
  end.

(** Every function of [fs] returns a nil error when the functions are
    run in order from [vals]. *)
Definition allSucceed (fs : list Func) (vals : list iface) : Prop :=
  ∀ pre g post, fs = pre ++ g :: post →
    (FuncCall g (poolAfter pre vals)).2 = None.
End CallSpec.

(** ** Specification vocabulary for the two searches *)

(** [f] is resolvable off the path [V]: every type that [f] needs from a
    mapper is the output of a library mapper that is not on the path and
    is itself resolvable once it has joined the path.  No mapper occurs
    twice along one line of descent, so the paths are acyclic. *)
#[warnings="-register-all"] Inductive Resolvable
    (needs : Func → list Type_) (mappers : list Func)
  : gset Func → Func → Prop :=
| resolvable V f :
    (∀ t, t ∈ needs f →
       ∃ m, m ∈ mappers ∧ Key (Out m) = Key t ∧ (m ∉ V) ∧
            Resolvable needs mappers ({[m]} ∪ V) m) →
    Resolvable needs mappers V f.

(** The arguments the check function rejects: what [Func.inputSet] has
    to find a mapper for. *)
Definition unsupplied (check : Type_ → bool) (f : Func) : list Type_ :=
  filter (λ t, check t = false) (Args f).

(** The number of library entries that are not on the path [V]; it bounds
    the depth of both searches. *)
Definition offPath (mappers : list Func) (V : gset Func) : nat :=
  length (filter (λ m, m ∉ V) mappers).

(** The invariant on the sets of [Func.chain]: a function is in
    [chainSet] only if it misses nothing, and in [pendingSet] only if it
    misses something. *)
Definition good (vals : list iface) (st : State) : Prop :=
  (∀ g, g ∈ chainSet st → Func_args g vals = []) ∧
  (∀ g, g ∈ pendingSet st → Func_args g vals ≠ []).


(** The invariant on the [pending] maps of [Func.inputSet]: an entry is
    filed under its own key and passed the check. *)
Definition accepted (check : Type_ → bool) (p : gmap nat Type_) : Prop :=
  ∀ k u, p !! k = Some u → Key u = k ∧ check u = true.

(** The values supply every type of the map [p]. *)
Definition covers (vals : list iface) (p : gmap nat Type_) : Prop :=
  ∀ k u, p !! k = Some u → existsb (matches u) vals = true.

(** The check function does not tell apart two descriptors of one
    type. *)
Definition keyRespecting (check : Type_ → bool) : Prop :=
  ∀ t u, Key t = Key u → check t = check u.

(** What is known after a call of [Func.chain] on a function outside the
    pending set: the pending set is as before, the chain set has only
    grown, and a chain was returned only for a resolvable function. *)
Definition chainSpec (rangeOrder : list Type_ → list Type_)
    (vals : list iface) (mappers : list Func)
    (rec : Func → list Func → State → option (State * result)) : Prop :=
  ∀ m chain st st' r,
    good vals st → m ∉ pendingSet st →
    rec m chain st = Some (st', r) →
    good vals st' ∧ pendingSet st' = pendingSet st ∧
    chainSet st ⊆ chainSet st' ∧
    ((∀ l t, t ∈ l → t ∈ rangeOrder l) →
     ∀ c, r = Ok c →
       Resolvable (λ g, Func_args g vals) mappers ({[m]} ∪ pendingSet st) m) ∧
    (∀ e, r = Err e →
       ∃ t, t ∈ rangeOrder (Func_args m vals) ∧ e = unableToMap t).

(** Calls on library entries outside the pending set [P0] return, and
    return a chain when the entry is resolvable. *)
Definition chainTotal (rangeOrder : list Type_ → list Type_)
    (vals : list iface) (mappers : list Func)
    (rec : Func → list Func → State → option (State * result))
    (P0 : gset Func) : Prop :=
  ∀ m chain st,
    good vals st → pendingSet st = P0 → m ∈ mappers → m ∉ P0 →
    ∃ st' r, rec m chain st = Some (st', r) ∧
      ((∀ l t, t ∈ rangeOrder l → t ∈ l) →
       Resolvable (λ g, Func_args g vals) mappers ({[m]} ∪ P0) m →
       ∃ c, r = Ok c).

(** What is known after a call of [Func.inputSet]: the visited set is as
    before; a returned map extends the input map, and the function is
    resolvable off the visited set, both for the values that cover the
    returned map and for the types the check function rejects. *)
Definition inputSpec (mappers : list Func) (check : Type_ → bool)
    (rec : Func → gset Func → gmap nat Type_ →
           option (gset Func * option (gmap nat Type_))) : Prop :=
  ∀ m V input V' r,
    accepted check input →
    rec m V input = Some (V', r) →
    V' = V ∧
    ∀ res, r = Some res →
      accepted check res ∧ input ⊆ res ∧
      (∀ vals, covers vals res →
         Resolvable (λ g, Func_args g vals) mappers V m) ∧
      (keyRespecting check → Resolvable (unsupplied check) mappers V m).

(** Calls on library entries outside the visited set [V0] return, and
    return a map when the entry is resolvable. *)
Definition inputTotal (mappers : list Func) (check : Type_ → bool)
    (rec : Func → gset Func → gmap nat Type_ →
           option (gset Func * option (gmap nat Type_)))
    (V0 : gset Func) : Prop :=
  ∀ m input,
    m ∈ mappers → m ∉ V0 → accepted check input →
    ∃ V' r, rec m ({[m]} ∪ V0) input = Some (V', r) ∧
      (Resolvable (unsupplied check) mappers ({[m]} ∪ V0) m → is_Some r).

(** ** Examples *)

Module Ex.
Definition tInt := {| Key := 1; Name := "int"%string |}.
Definition tString := {| Key := 2; Name := "string"%string |}.
Definition tFloat := {| Key := 3; Name := "float64"%string |}.

Definition M1 := {| Addr := 1; Args := []; Out := tInt; Values := [] |}.
Definition M2 := {| Addr := 2; Args := [tInt]; Out := tString; Values := [] |}.
Definition T := {| Addr := 0; Args := [tInt; tString]; Out := tFloat; Values := [] |}.
Definition T2 := {| Addr := 3; Args := [tString]; Out := tFloat; Values := [] |}.

Definition tBool := {| Key := 4; Name := "bool"%string |}.

(** A target whose only argument has one producer that cannot be
  resolved and one that can. *)
Definition T5 := {| Addr := 5; Args := [tString]; Out := tFloat; Values := [] |}.
Definition Mbad := {| Addr := 6; Args := [tBool]; Out := tString; Values := [] |}.
Definition Mgood := {| Addr := 7; Args := []; Out := tString; Values := [] |}.

(** Two mappers that need each other's output. *)
Definition A := {| Addr := 8; Args := [tInt]; Out := tString; Values := [] |}.
Definition B := {| Addr := 9; Args := [tString]; Out := tInt; Values := [] |}.

(** A producer of int that itself needs a bool, and a producer of bool. *)
Definition MX := {| Addr := 10; Args := [tBool]; Out := tInt; Values := [] |}.
Definition MZ := {| Addr := 11; Args := []; Out := tBool; Values := [] |}.

(** A target that needs a float, which nothing produces. *)
Definition TF := {| Addr := 12; Args := [tFloat]; Out := tString; Values := [] |}.

(** A run in which [M1] yields an int and every other function fails. *)
Definition call (f : Func) (vals : list iface) : iface * option string :=
if bool_decide (f = M1) then (Val 1 7, None) else (Nil, Some "boom"%string).

Definition chain12 := {| funcs := [M1; M2]; values := [] |}.
Definition chain1 := {| funcs := [M1]; values := [] |}.
Definition chainT :=
{| funcs := [M1; M2; T]; values := [] |}.
End Ex.

(** ** Chain.String *)

(** [strings.Join(elems, sep)] of the Go library: the elements in order
    with [sep] between neighbours, the empty string for no element. *)
Fixpoint strings_Join (elems : list string) (sep : string) : string :=
  match elems with
  | [] => ""%string
  | [s] => s
  | s :: rest => (s +:+ sep +:+ strings_Join rest sep)%string
  end.

Section String.
(** [f.String()], the diagnostic label of a function; it is defined
    outside chain.go. *)
Variable FuncString : Func → string.

(** Lines 331-333: [ss[i] = f.String()] for each index [i] of
    [c.funcs], counting from [i]. *)
Fixpoint labelLoop (fs : list Func) (i : nat) (ss : list string) : list string :=
  match fs with
  | [] => ss
  | f :: fs' => labelLoop fs' (S i) (<[i := FuncString f]> ss)
  end.

(** Lines 329-336. *)
Definition Chain_String (c : Chain) : string :=
  let ss := replicate (length (funcs c)) ""%string in
  strings_Join (labelLoop (funcs c) 0 ss) " => "%string.
End String.

(** ** Further specification vocabulary *)

(** The functions of [chain] that miss no argument occur once each and
    are all recorded in the set [cs]. *)
Definition chainInv (vals : list iface) (chain : list Func) (cs : gset Func)
  : Prop :=
  NoDup (filter (λ g, Func_args g vals = []) chain) ∧
  ∀ g, g ∈ chain → Func_args g vals = [] → g ∈ cs.

(** What every call of [Func.chain] keeps: [chainSet] only grows, a call
    on a function outside [pendingSet] leaves [pendingSet] as it was,
    and a returned chain is the chain passed in, then library mappers,
    then the function itself, with [chainInv] carried along. *)
Definition chainKeeps (vals : list iface) (mappers : list Func)
    (rec : Func → list Func → State → option (State * result)) : Prop :=
  ∀ m chain st st' r,
    rec m chain st = Some (st', r) →
    chainSet st ⊆ chainSet st' ∧
    (m ∉ pendingSet st → pendingSet st' = pendingSet st) ∧
    ∀ c, r = Ok c →
      ∃ mid, c = chain ++ mid ++ [m] ∧ (∀ g, g ∈ mid → g ∈ mappers) ∧
        (chainInv vals chain (chainSet st) →
         (Func_args m vals = [] → m ∉ chain) →
         chainInv vals c (chainSet st')).

(** The types of a returned input set come from the input map, from the
    arguments of the function, or from the arguments of a library
    mapper. *)
Definition fromArgs (mappers : list Func) (f : Func)
    (input res : gmap nat Type_) : Prop :=
  ∀ k u, res !! k = Some u →
    input !! k = Some u ∨ u ∈ Args f ∨ ∃ m, m ∈ mappers ∧ u ∈ Args m.

Module Ex2.
Definition label (f : Func) : string :=
  if bool_decide (f = Ex.T) then "target"%string
  else if bool_decide (f = Ex.M1) then "one"%string
  else "other"%string.

(** [M1] and [MZ] succeed with a value, [MX] succeeds with nil, every
    other function fails. *)
Definition call (f : Func) (vals : list iface) : iface * option string :=
  if bool_decide (f = Ex.M1) then (Val 1 7, None)
  else if bool_decide (f = Ex.MZ) then (Val 4 1, None)
  else if bool_decide (f = Ex.MX) then (Nil, None)
  else (Nil, Some "boom"%string).

(** The check that accepts strings only. *)
Definition wantsString (t : Type_) : bool := bool_decide (Key t = 2).

Definition chainZX := {| funcs := [Ex.MZ; Ex.MX; Ex.M1]; values := [Val 9 9] |}.
Definition chainZXT := {| funcs := [Ex.MZ; Ex.MX; Ex.T; Ex.M1]; values := [Val 9 9] |}.
End Ex2.

(** ** Chain.Call: the value pool and the execution order *)

Section CallFacts.
Variable FuncCall : Func → list iface → iface * option string.

Lemma poolAfter_app fs gs vals :
    poolAfter FuncCall (fs ++ gs) vals = poolAfter FuncCall gs (poolAfter FuncCall fs vals).
Proof. revert vals. induction fs as [|f fs IH]; intros vals; simpl; auto. Qed.

Lemma poolAfter_prefix fs vals : vals `prefix_of` poolAfter FuncCall fs vals.
Proof.
    revert vals. induction fs as [|f fs IH]; intros vals; simpl; [done|].
    etrans; [|apply IH]. unfold push. destruct (IsValid _); [|done].
    by apply prefix_app_r.
Qed.

Lemma allSucceed_cons f fs vals :
    allSucceed FuncCall (f :: fs) vals →
    (FuncCall f vals).2 = None ∧ allSucceed FuncCall fs (push vals (FuncCall f vals).1).
Proof.
    intros H. split.
    - apply (H [] f fs). done.
    - intros pre g post ->. apply (H (f :: pre) g post). done.
Qed.

Lemma callLoop_fail all pre f post res vals trace e :
    allSucceed FuncCall pre vals →
    (FuncCall f (poolAfter FuncCall pre vals)).2 = Some e →
    callLoop FuncCall all (pre ++ f :: post) res vals trace =
      {| returned := (Nil, Some e);
         after := {| funcs := all; values := poolAfter FuncCall pre vals |};
         executed := trace ++ pre ++ [f] |}.
Proof.
    revert res vals trace.
    induction pre as [|g pre IH]; intros res vals trace Hpre Hf; simpl in *.
    - destruct (FuncCall f vals) as [r err]; simpl in *. by subst err.
    - apply allSucceed_cons in Hpre as [Hg Hpre].
      destruct (FuncCall g vals) as [r err]; simpl in *. subst err.
      fold (push vals r). rewrite (IH r _ (trace ++ [g]) Hpre Hf).
      by rewrite <- (assoc_L (++) trace [g]).
Qed.

Lemma callLoop_success all fs res vals trace :
    allSucceed FuncCall fs vals →
    callLoop FuncCall all fs res vals trace =
      {| returned :=
           (match last fs with
            | None => res
            | Some f =>
                (FuncCall f (poolAfter FuncCall (removelast fs) vals)).1
            end, None);
         after := {| funcs := all; values := poolAfter FuncCall fs vals |};
         executed := trace ++ fs |}.
Proof.
    revert res vals trace.
    induction fs as [|g fs IH]; intros res vals trace Hfs; simpl.
    - by rewrite (right_id_L [] (++)).
    - apply allSucceed_cons in Hfs as [Hg Hfs].
      destruct (FuncCall g vals) as [r err] eqn:Hcall; simpl in *. subst err.
      fold (push vals r). rewrite (IH r _ (trace ++ [g]) Hfs).
      rewrite <- (assoc_L (++) trace [g]). simpl.
      destruct fs as [|h fs]; simpl; [by rewrite Hcall|].
      rewrite Hcall. simpl.
      destruct (last (h :: fs)) eqn:Hlast; [done|].
      by apply last_None in Hlast.
Qed.

(** C8.  [Chain.Call] runs the functions in the order of [funcs].  At the
    first function whose execution returns an error it stops: the error
    is returned with a nil result and the functions executed are exactly
    those up to and including the failing one.  When no function fails,
    all of them are executed, in order, and the result of the last one is
    returned with a nil error. *)
Theorem Chain_Call_in_order_first_error c :
  (∀ pre f post e,
      funcs c = pre ++ f :: post →
      allSucceed FuncCall pre (values c) →
      (FuncCall f (poolAfter FuncCall pre (values c))).2 = Some e →
      returned (Chain_Call FuncCall c) = (Nil, Some e) ∧
      executed (Chain_Call FuncCall c) = pre ++ [f]) ∧
  (allSucceed FuncCall (funcs c) (values c) →
   executed (Chain_Call FuncCall c) = funcs c ∧
   ∀ pre f, funcs c = pre ++ [f] →
     returned (Chain_Call FuncCall c) =
       ((FuncCall f (poolAfter FuncCall pre (values c))).1, None)).
Proof.
  unfold Chain_Call. destruct c as [fs vs]; simpl. split.
  - intros pre f post e -> Hpre Hf.
    by rewrite (callLoop_fail _ _ _ _ _ _ _ _ Hpre Hf).
  - intros Hall. rewrite (callLoop_success _ _ _ _ _ Hall). simpl.
    split; [done|]. intros pre f Hc. rewrite Hc.
    by rewrite last_snoc, removelast_last.
Qed.

(** C2, as the code has it.  When [Chain.Call] fails at some function,
    the chain's value pool is not put back: it is the pool from before
    the call followed by the valid results of the functions that ran
    before the failing one. *)
Theorem Chain_Call_failure_keeps_produced_values c pre f post e :
  funcs c = pre ++ f :: post →
  allSucceed FuncCall pre (values c) →
  (FuncCall f (poolAfter FuncCall pre (values c))).2 = Some e →
  returned (Chain_Call FuncCall c) = (Nil, Some e) ∧
  values (after (Chain_Call FuncCall c)) = poolAfter FuncCall pre (values c) ∧
  values c `prefix_of` values (after (Chain_Call FuncCall c)).
Proof.
  unfold Chain_Call. destruct c as [fs vs]; simpl. intros -> Hpre Hf.
  rewrite (callLoop_fail _ _ _ _ _ _ _ _ Hpre Hf). simpl.
  split; [done|]. split; [done|]. apply poolAfter_prefix.
Qed.

End CallFacts.

Lemma allSucceed_nil FuncCall vals : allSucceed FuncCall [] vals.
Proof. intros [|??] ?? ?; discriminate. Qed.

Lemma allSucceed_M1 : allSucceed Ex.call [Ex.M1] [].
Proof.
  intros pre g post H.
  destruct pre as [|? [|??]]; simplify_eq/=. reflexivity.
Qed.

Lemma Chain_Call_in_order_first_error_witness :
  (returned (Chain_Call Ex.call Ex.chain12) = (Nil, Some "boom"%string) ∧
   executed (Chain_Call Ex.call Ex.chain12) = [Ex.M1; Ex.M2]) ∧
  (executed (Chain_Call Ex.call Ex.chain1) = [Ex.M1] ∧
   returned (Chain_Call Ex.call Ex.chain1) = (Val 1 7, None)).
Proof.
  split.
  - apply (proj1 (Chain_Call_in_order_first_error Ex.call Ex.chain12)
             [Ex.M1] Ex.M2 [] "boom"%string);
      [reflexivity | apply allSucceed_M1 | reflexivity].
  - destruct (proj2 (Chain_Call_in_order_first_error Ex.call Ex.chain1)
                allSucceed_M1) as [Hex Hret].
    split; [exact Hex|]. apply (Hret [] Ex.M1). reflexivity.
Defined.

(** C2 as stated fails: [M1] produces an int, [M2] then fails, and the
    int is still in the pool although the pool was empty before. *)
Lemma Chain_Call_failure_restores_pool_counterexample :
  ¬ (∀ FuncCall c e,
       (returned (Chain_Call FuncCall c)).2 = Some e →
       values (after (Chain_Call FuncCall c)) = values c).
Proof.
  intros H. specialize (H Ex.call Ex.chain12 "boom"%string eq_refl).
  vm_compute in H. discriminate H.
Qed.

Lemma Chain_Call_failure_keeps_produced_values_witness :
  returned (Chain_Call Ex.call Ex.chain12) = (Nil, Some "boom"%string) ∧
  values (after (Chain_Call Ex.call Ex.chain12)) = [Val 1 7] ∧
  [] `prefix_of` values (after (Chain_Call Ex.call Ex.chain12)).
Proof.
  apply (Chain_Call_failure_keeps_produced_values Ex.call Ex.chain12
           [Ex.M1] Ex.M2 [] "boom"%string);
    [reflexivity | apply allSucceed_M1 | reflexivity].
Defined.

(** ** Facts on paths and resolvability *)

Lemma offPath_le mappers V : offPath mappers V ≤ length mappers.
Proof. apply length_filter. Qed.

Lemma offPath_insert mappers m V :
  m ∈ mappers → m ∉ V → offPath mappers ({[m]} ∪ V) < offPath mappers V.
Proof.
  unfold offPath. induction mappers as [|x l IH]; intros Hin Hm.
  - by apply elem_of_nil in Hin.
  - rewrite !filter_cons. apply elem_of_cons in Hin as [<-|Hin].
    + rewrite decide_False by set_solver. rewrite decide_True by done. simpl.
      apply Nat.lt_succ_r. clear IH.
      induction l as [|y l IH]; [done|]. rewrite !filter_cons.
      destruct (decide (y ∉ {[m]} ∪ V)), (decide (y ∉ V)); simpl; try lia.
      set_solver.
    + specialize (IH Hin Hm).
      destruct (decide (x ∉ {[m]} ∪ V)), (decide (x ∉ V)); simpl; try lia.
      set_solver.
Qed.

Lemma mapperIndex_snoc l m :
  mapperIndex (l ++ [m]) =
    <[Key (Out m) := mapperIndex l !!! Key (Out m) ++ [m]]> (mapperIndex l).
Proof. unfold mapperIndex. by rewrite foldl_snoc. Qed.

Lemma mapperIndex_lookup mappers k :
  mapperIndex mappers !!! k = filter (λ m, Key (Out m) = k) mappers.
Proof.
  induction mappers as [|m l IH] using rev_ind; [done|].
  rewrite mapperIndex_snoc, filter_app, filter_cons, filter_nil.
  destruct (decide (Key (Out m) = k)) as [<-|Hne].
  - by rewrite lookup_total_insert_eq, IH.
  - rewrite lookup_total_insert_ne by done. by rewrite IH, (right_id_L [] (++)).
Qed.

Lemma elem_of_mapperIndex mappers k m :
  m ∈ mapperIndex mappers !!! k ↔ m ∈ mappers ∧ Key (Out m) = k.
Proof. rewrite mapperIndex_lookup, list_elem_of_filter. tauto. Qed.

(** Induction on a resolution, with the induction hypothesis available
    for the producer chosen for each needed type. *)
Lemma Resolvable_induction needs mappers (Q : gset Func → Func → Prop) :
  (∀ V f,
      (∀ t, t ∈ needs f →
         ∃ m, m ∈ mappers ∧ Key (Out m) = Key t ∧ (m ∉ V) ∧
              Resolvable needs mappers ({[m]} ∪ V) m ∧ Q ({[m]} ∪ V) m) →
      Q V f) →
  ∀ V f, Resolvable needs mappers V f → Q V f.
Proof.
  intros Hstep. fix IH 3. intros V f [V' f' H]. apply Hstep.
  intros t Ht. destruct (H t Ht) as (m & Hm & Hk & HV & Hr).
  exists m. split; [done|]. split; [done|]. split; [done|]. split; [done|].
  exact (IH _ _ Hr).
Qed.

Lemma Resolvable_inv needs mappers V f :
  Resolvable needs mappers V f →
  ∀ t, t ∈ needs f →
    ∃ m, m ∈ mappers ∧ Key (Out m) = Key t ∧ (m ∉ V) ∧
         Resolvable needs mappers ({[m]} ∪ V) m.
Proof. by intros [V' f' H]. Qed.

Lemma Resolvable_anti needs mappers V f :
  Resolvable needs mappers V f →
  ∀ V', V' ⊆ V → Resolvable needs mappers V' f.
Proof.
  revert V f. apply (Resolvable_induction needs mappers
    (λ V f, ∀ V', V' ⊆ V → Resolvable needs mappers V' f)).
  intros V f IH V' Hsub. constructor. intros t Ht.
  destruct (IH t Ht) as (m & Hm & Hk & HV & _ & IHm).
  exists m. split; [done|]. split; [done|].
  split; [by intros Hin%Hsub|]. apply IHm. by apply union_mono_l.
Qed.

Lemma Resolvable_no_needs needs mappers V f :
  needs f = [] → Resolvable needs mappers V f.
Proof. intros H. constructor. rewrite H. by intros t ?%elem_of_nil. Qed.

(** A resolution of [f] that passes through [f] again contains a
    resolution of [f] that does not: [f] is resolvable off the path that
    holds [f] itself. *)
Lemma Resolvable_off_target needs mappers f V g :
  Resolvable needs mappers V g →
  Resolvable needs mappers ({[f]} ∪ V) g ∨ Resolvable needs mappers {[f]} f.
Proof.
  revert V g. apply (Resolvable_induction needs mappers
    (λ V g, Resolvable needs mappers ({[f]} ∪ V) g ∨
            Resolvable needs mappers {[f]} f)).
  intros V g IH.
  assert (∀ l : list Type_, (∀ t, t ∈ l → t ∈ needs g) →
            (∀ t, t ∈ l →
               ∃ m, m ∈ mappers ∧ Key (Out m) = Key t ∧ (m ∉ {[f]} ∪ V) ∧
                    Resolvable needs mappers ({[m]} ∪ ({[f]} ∪ V)) m) ∨
            Resolvable needs mappers {[f]} f) as Hlist.
  { induction l as [|t l IHl]; intros Hl.
    - left. intros t Ht. by apply elem_of_nil in Ht.
    - destruct IHl as [IHl|?]; [intros; apply Hl; by right| |by right].
      destruct (IH t (Hl t ltac:(left))) as (m & Hm & Hk & HV & HR & [HRf|?]);
        [|by right].
      destruct (decide (m = f)) as [->|Hne].
      + right. apply (Resolvable_anti _ _ _ _ HR).
        apply union_subseteq_l.
      + left. intros t' [->|Ht']%elem_of_cons; [|by apply IHl].
        exists m. split; [done|]. split; [done|]. split.
        * intros [Hf%elem_of_singleton|?]%elem_of_union; done.
        * apply (Resolvable_anti _ _ _ _ HRf).
          intros x. rewrite !elem_of_union. tauto. }
  destruct (Hlist (needs g)) as [Hall|?]; [done| |by right].
  left. by constructor.
Qed.

Lemma Resolvable_target needs mappers f :
  Resolvable needs mappers ∅ f → Resolvable needs mappers {[f]} f.
Proof.
  intros [H|H]%(Resolvable_off_target _ _ f); [|done].
  apply (Resolvable_anti _ _ _ _ H). apply union_subseteq_l.
Qed.
(** ** Func.Chain: the short circuit and the position of the target *)

Lemma Func_chain_last rangeOrder vals idx fuel f chain st st' c :
  Func_chain rangeOrder vals idx fuel f chain st = Some (st', Ok c) →
  last c = Some f.
Proof.
  destruct fuel as [|n]; simpl; [done|].
  case_bool_decide.
  - intros [= _ <-]. apply last_snoc.
  - destruct (missingLoop _ _ _ _ _) as [[st1 [c1|e]]|]; try done.
    intros [= _ <-]. apply last_snoc.
Qed.

(** C4.  When the target misses no argument against the values extended
    by its bound values, [Func.Chain] returns the chain [[target]] over
    those values and no error; the mapper library, the fuel and the
    iteration order play no part in the outcome. *)
Theorem Func_Chain_short_circuit rangeOrder fuel f mappers vals :
  Func_args f (vals ++ Values f) = [] →
  Func_Chain rangeOrder fuel f mappers vals =
    Some (Built {| funcs := [f]; values := vals ++ Values f |}).
Proof. intros H. unfold Func_Chain. by rewrite H. Qed.

Lemma Func_Chain_short_circuit_witness :
  Func_args Ex.M2 ([Val 1 5] ++ Values Ex.M2) = [] ∧
  Func_Chain id 0 Ex.M2 [Ex.M1; Ex.M2] [Val 1 5] =
    Some (Built {| funcs := [Ex.M2]; values := [Val 1 5] ++ Values Ex.M2 |}).
Proof.
  split; [reflexivity|].
  apply (Func_Chain_short_circuit id 0 Ex.M2 [Ex.M1; Ex.M2] [Val 1 5]).
  reflexivity.
Defined.

Lemma Func_Chain_last rangeOrder fuel f mappers vals c :
  Func_Chain rangeOrder fuel f mappers vals = Some (Built c) →
  last (funcs c) = Some f.
Proof.
  unfold Func_Chain. case_bool_decide.
  - intros [= <-]. done.
  - destruct (Func_chain _ _ _ _ _ _ _) as [[st' [ch|e]]|] eqn:Hch; try done.
    intros [= <-]. simpl. by apply Func_chain_last in Hch.
Qed.

(** C9.  In every chain that [Func.Chain] returns, the target is the last
    element of [funcs], so [Chain.Out] is the output type of the
    target. *)
Theorem Func_Chain_target_last rangeOrder fuel f mappers vals c :
  Func_Chain rangeOrder fuel f mappers vals = Some (Built c) →
  last (funcs c) = Some f ∧ Chain_Out c = Some (Out f).
Proof.
  intros Hlast%Func_Chain_last. unfold Chain_Out. by rewrite Hlast.
Qed.

Lemma Func_Chain_example :
  Func_Chain id 3 Ex.T [Ex.M1; Ex.M2] [] = Some (Built Ex.chainT).
Proof. vm_compute. reflexivity. Qed.

Lemma Func_Chain_target_last_witness :
  last (funcs Ex.chainT) = Some Ex.T ∧ Chain_Out Ex.chainT = Some (Out Ex.T).
Proof.
  apply (Func_Chain_target_last id 3 Ex.T [Ex.M1; Ex.M2] [] Ex.chainT).
  apply Func_Chain_example.
Defined.

(** ** ChainTarget *)

Lemma ChainTarget_loop_accepts rangeOrder fuel check ms mappers vals c :
  ChainTarget_loop rangeOrder fuel check ms mappers vals = Some (Some c) →
  ∃ m, m ∈ ms ∧ check (Out m) = true ∧
       Func_Chain rangeOrder fuel m mappers vals = Some (Built c).
Proof.
  induction ms as [|m ms IH]; simpl; [done|].
  destruct (check (Out m)) eqn:Hcheck; simpl.
  - destruct (Func_Chain _ _ m _ _) as [[c'|e]|] eqn:Hm; try done.
    + intros [= ->]. exists m. split; [left|]. done.
    + intros H. destruct (IH H) as (m' & ? & ? & ?).
      exists m'. split; [by right|done].
  - intros H. destruct (IH H) as (m' & ? & ? & ?).
    exists m'. split; [by right|done].
Qed.

(** C10.  A chain returned by [ChainTarget] has an output type on which
    the check function holds. *)
Theorem ChainTarget_output_accepted rangeOrder fuel check mappers vals c :
  ChainTarget rangeOrder fuel check mappers vals = Some (Some c) →
  ∃ t, Chain_Out c = Some t ∧ check t = true.
Proof.
  intros H. apply ChainTarget_loop_accepts in H as (m & _ & Hcheck & Hm).
  apply Func_Chain_last in Hm. exists (Out m). unfold Chain_Out.
  by rewrite Hm.
Qed.

Lemma ChainTarget_output_accepted_witness :
  ∃ t, Chain_Out {| funcs := [Ex.M1; Ex.M2]; values := [] |} = Some t ∧
       bool_decide (Key t = 2) = true.
Proof.
  apply (ChainTarget_output_accepted id 3 (fun t => bool_decide (Key t = 2))
           [Ex.M1; Ex.M2] []).
  vm_compute. reflexivity.
Defined.
(** ** Func.chain: what a call leaves behind *)

Section ChainSearch.
Variable rangeOrder : list Type_ → list Type_.
Variable vals : list iface.
Variable mappers : list Func.

Local Notation "'idx'" := (mapperIndex mappers).
Local Notation "'resolves'" := (Resolvable (λ g : Func, Func_args g vals) mappers).
Local Notation "'chainSpec'" := (chainSpec rangeOrder vals mappers).
Local Notation "'chainTotal'" := (chainTotal rangeOrder vals mappers).

Section LoopSpec.
Variable rec : Func → list Func → State → option (State * result).
Hypothesis rec_spec : chainSpec rec.

Lemma tryMappers_spec ms chain st st' o :
  good vals st →
  tryMappers rec ms chain st = Some (st', o) →
  good vals st' ∧ pendingSet st' = pendingSet st ∧
  chainSet st ⊆ chainSet st' ∧
  ((∀ l t, t ∈ l → t ∈ rangeOrder l) →
   ∀ c, o = Some c →
     ∃ m, m ∈ ms ∧ (m ∉ pendingSet st) ∧ resolves ({[m]} ∪ pendingSet st) m).
Proof.
  revert st. induction ms as [|m ms IH]; intros st Hgood; simpl.
  - intros [= <- <-]. split; [done|]. split; [done|]. split; [done|].
    by intros _ cc.
  - case_bool_decide as Hpend.
    + intros H. destruct (IH _ Hgood H) as (Hg & Hp & Hc & Hres).
      split; [done|]. split; [done|]. split; [done|].
      intros Hro cc ->.
      destruct (Hres Hro cc eq_refl) as (m' & ? & ? & ?).
      exists m'. split; [by right|done].
    + destruct (rec m chain st) as [[st1 [next|e]]|] eqn:Hrec; [| |done].
      * intros [= <- <-].
        destruct (rec_spec _ _ _ _ _ Hgood Hpend Hrec) as (? & ? & ? & Hok & _).
        split; [done|]. split; [done|]. split; [done|].
        intros Hro cc _.
        exists m. split; [left|]. split; [done|]. by apply (Hok Hro next).
      * intros H.
        destruct (rec_spec _ _ _ _ _ Hgood Hpend Hrec) as (Hg1 & Hp1 & Hc1 & _).
        destruct (IH _ Hg1 H) as (? & Hp2 & Hc2 & Hres).
        split; [done|]. split; [congruence|]. split; [by etrans|].
        intros Hro cc ->. destruct (Hres Hro cc eq_refl) as (m' & ? & ? & ?).
        exists m'. rewrite <- Hp1. split; [by right|done].
Qed.

Lemma called_elem ms st :
  called ms st = true → ∃ m, m ∈ ms ∧ m ∈ chainSet st.
Proof.
  unfold called. intros (m & Hm & Hc)%existsb_exists.
  exists m. split; [by apply list_elem_of_In|]. by apply bool_decide_eq_true in Hc.
Qed.

Lemma missingLoop_spec ts chain st st' r :
  good vals st →
  missingLoop idx rec ts chain st = Some (st', r) →
  good vals st' ∧ pendingSet st' = pendingSet st ∧
  chainSet st ⊆ chainSet st' ∧
  ((∀ l t, t ∈ l → t ∈ rangeOrder l) →
   ∀ c, r = Ok c →
     ∀ t, t ∈ ts →
       ∃ m, m ∈ idx !!! Key t ∧ (m ∉ pendingSet st) ∧
            resolves ({[m]} ∪ pendingSet st) m) ∧
  (∀ e, r = Err e → ∃ t, t ∈ ts ∧ e = unableToMap t).
Proof.
  revert chain st. induction ts as [|t ts IH]; intros chain st Hgood; simpl.
  - intros [= <- <-]. split; [done|]. split; [done|]. split; [done|].
    split; [|done]. intros _ cc _ t Ht. by apply elem_of_nil in Ht.
  - case_bool_decide as Hlen.
    2:{ intros [= <- <-]. split; [done|]. split; [done|]. split; [done|].
        split; [done|]. intros e [= <-]. exists t. split; [left|done]. }
    destruct (called _ st) eqn:Hcalled.
    + intros H. destruct (IH _ _ Hgood H) as (? & ? & ? & Hok & Herr).
      split; [done|]. split; [done|]. split; [done|]. split.
      * intros Hro cc -> t' [->|Ht']%elem_of_cons; [|by eapply Hok].
        apply called_elem in Hcalled as (m & Hm & Hc).
        destruct Hgood as [Hcs Hps].
        exists m. split; [done|]. split.
        -- intros Hp. by apply Hps in Hp; apply Hcs in Hc.
        -- apply Resolvable_no_needs. by apply Hcs.
      * intros e ->. destruct (Herr e eq_refl) as (t' & ? & ?).
        exists t'. split; [by right|done].
    + destruct (tryMappers rec _ chain st) as [[st1 [next|]]|] eqn:Htry;
        [| |done].
      * intros H.
        destruct (tryMappers_spec _ _ _ _ _ Hgood Htry) as (Hg1 & Hp1 & Hc1 & Hres).
        destruct (IH _ _ Hg1 H) as (? & Hp2 & Hc2 & Hok & Herr).
        split; [done|]. split; [congruence|]. split; [by etrans|]. split.
        -- intros Hro cc -> t' [->|Ht']%elem_of_cons.
           ++ destruct (Hres Hro next eq_refl) as (m & ? & ? & ?). by exists m.
           ++ rewrite <- Hp1. by eapply Hok.
        -- intros e ->. destruct (Herr e eq_refl) as (t' & ? & ?).
           exists t'. split; [by right|done].
      * intros [= <- <-].
        destruct (tryMappers_spec _ _ _ _ _ Hgood Htry) as (? & ? & ? & _).
        split; [done|]. split; [done|]. split; [done|]. split; [done|].
        intros e [= <-]. exists t. split; [left|done].
Qed.
End LoopSpec.

Lemma Func_chain_spec fuel :
  chainSpec (Func_chain rangeOrder vals idx fuel).
Proof.
  induction fuel as [|n IH]; intros f chain st st' r Hgood Hpend; simpl; [done|].
  case_bool_decide as Hlen.
  - intros [= <- <-]. apply length_zero_iff_nil in Hlen.
    destruct Hgood as [Hcs Hps]. split; [|split; [|split; [|split]]]; simpl.
    + split; simpl; [|done].
      intros g [->%elem_of_singleton|Hg]%elem_of_union; [done|by apply Hcs].
    + done.
    + apply union_subseteq_r.
    + intros _ cc _. by apply Resolvable_no_needs.
    + done.
  - set (st1 := {| chainSet := chainSet st;
                   pendingSet := {[f]} ∪ pendingSet st |}).
    assert (good vals st1) as Hgood1.
    { destruct Hgood as [Hcs Hps]. split; simpl; [done|].
      intros g [->%elem_of_singleton|Hg]%elem_of_union; [|by apply Hps].
      intros Hnil. by rewrite Hnil in Hlen. }
    destruct (missingLoop _ _ _ chain st1) as [[st2 r2]|] eqn:Hloop; [|done].
    intros [= <- <-].
    destruct (missingLoop_spec _ IH _ _ _ _ _ Hgood1 Hloop)
      as ([Hcs2 Hps2] & Hp2 & Hc2 & Hok & Herr).
    simpl in Hp2, Hc2. split; [|split; [|split; [|split]]]; simpl.
    + split; simpl; [done|]. intros g Hg. apply Hps2.
      by apply elem_of_difference in Hg as [? _].
    + rewrite Hp2. apply set_eq. intros g.
      rewrite elem_of_difference, elem_of_union, elem_of_singleton.
      split; [tauto|]. intros Hg. split; [by right|]. by intros ->.
    + done.
    + intros Hro cc Hc. destruct r2 as [c2|]; [|done].
      constructor. intros t Ht.
      destruct (Hok Hro c2 eq_refl t (Hro _ _ Ht)) as (m & Hm & Hmp & Hres).
      apply elem_of_mapperIndex in Hm as [Hm Hk].
      exists m. simpl in Hmp, Hres. done.
    + intros e He. destruct r2 as [|e2]; [done|]. injection He as ->.
      by apply Herr.
Qed.

(** ** Func.chain: termination, and success on resolvable functions *)

Section LoopTotal.
Variable rec : Func → list Func → State → option (State * result).
Variable P0 : gset Func.
Hypothesis rec_spec : chainSpec rec.
Hypothesis rec_total : chainTotal rec P0.

Lemma tryMappers_total ms chain st :
  (∀ m, m ∈ ms → m ∈ mappers) →
  good vals st → pendingSet st = P0 →
  ∃ st' o, tryMappers rec ms chain st = Some (st', o) ∧
    ((∀ l t, t ∈ rangeOrder l → t ∈ l) →
     (∃ m, m ∈ ms ∧ (m ∉ P0) ∧ resolves ({[m]} ∪ P0) m) → is_Some o).
Proof.
  revert st. induction ms as [|m ms IH]; intros st Hms Hgood HP; simpl.
  - eexists _, _. split; [done|]. intros _ (m & Hm & _). by apply elem_of_nil in Hm.
  - assert (∀ m', m' ∈ ms → m' ∈ mappers) as Hms' by (intros; apply Hms; by right).
    case_bool_decide as Hpend.
    + destruct (IH st Hms' Hgood HP) as (st' & o & Heq & Hres).
      exists st', o. split; [done|]. intros Hro (m' & [->|Hm']%elem_of_cons & Hp & Hr).
      * by rewrite HP in Hpend.
      * apply (Hres Hro). by exists m'.
    + rewrite HP in Hpend.
      destruct (rec_total m chain st Hgood HP (Hms m ltac:(left)) Hpend)
        as (st1 & r & Hrec & Hok).
      rewrite Hrec. destruct r as [next|e].
      * eexists _, _. split; [done|]. by intros _ _.
      * rewrite <- HP in Hpend.
        destruct (rec_spec _ _ _ _ _ Hgood Hpend Hrec) as (Hg1 & Hp1 & _).
        destruct (IH st1 Hms' Hg1 ltac:(congruence)) as (st' & o & Heq & Hres).
        exists st', o. split; [done|].
        intros Hro (m' & [->|Hm']%elem_of_cons & Hp & Hr).
        -- by destruct (Hok Hro Hr).
        -- apply (Hres Hro). by exists m'.
Qed.

Lemma missingLoop_total ts chain st :
  good vals st → pendingSet st = P0 →
  ∃ st' r, missingLoop idx rec ts chain st = Some (st', r) ∧
    ((∀ l t, t ∈ rangeOrder l → t ∈ l) →
     (∀ t, t ∈ ts →
        ∃ m, m ∈ idx !!! Key t ∧ (m ∉ P0) ∧ resolves ({[m]} ∪ P0) m) →
     ∃ c, r = Ok c).
Proof.
  revert chain st. induction ts as [|t ts IH]; intros chain st Hgood HP; simpl.
  - eexists _, _. split; [done|]. intros _ _. by eexists.
  - case_bool_decide as Hlen.
    2:{ eexists _, _. split; [done|]. intros _ Hall.
        destruct (Hall t ltac:(left)) as (m & Hm & _).
        destruct (idx !!! Key t); [by apply elem_of_nil in Hm|simpl in Hlen; lia]. }
    destruct (called _ st).
    + destruct (IH chain st Hgood HP) as (st' & r & Heq & Hres).
      exists st', r. split; [done|]. intros Hro Hall. apply (Hres Hro).
      intros t' Ht'. apply Hall. by right.
    + destruct (tryMappers_total (idx !!! Key t) chain st) as (st1 & o & Htry & Hsome);
        [by intros m [? _]%elem_of_mapperIndex|done|done|].
      rewrite Htry.
      destruct (tryMappers_spec _ rec_spec _ _ _ _ _ Hgood Htry) as (Hg1 & Hp1 & _).
      destruct o as [next|].
      * destruct (IH next st1 Hg1 ltac:(congruence)) as (st' & r & Heq & Hres).
        exists st', r. split; [done|]. intros Hro Hall. apply (Hres Hro).
        intros t' Ht'. apply Hall. by right.
      * eexists _, _. split; [done|]. intros Hro Hall.
        destruct (Hsome Hro (Hall t ltac:(left))) as [? [=]].
Qed.
End LoopTotal.

Lemma Func_chain_total fuel f chain st :
  good vals st → f ∉ pendingSet st →
  offPath mappers ({[f]} ∪ pendingSet st) < fuel →
  ∃ st' r, Func_chain rangeOrder vals idx fuel f chain st = Some (st', r) ∧
    ((∀ l t, t ∈ rangeOrder l → t ∈ l) →
     resolves ({[f]} ∪ pendingSet st) f → ∃ c, r = Ok c).
Proof.
  revert f chain st.
  induction fuel as [|n IH]; intros f chain st Hgood Hpend Hfuel; [lia|]. simpl.
  case_bool_decide as Hlen.
  - eexists _, _. split; [done|]. intros _ _. by eexists.
  - set (st1 := {| chainSet := chainSet st;
                   pendingSet := {[f]} ∪ pendingSet st |}).
    assert (good vals st1) as Hgood1.
    { destruct Hgood as [Hcs Hps]. split; simpl; [done|].
      intros g [->%elem_of_singleton|Hg]%elem_of_union; [|by apply Hps].
      intros Hnil. by rewrite Hnil in Hlen. }
    destruct (missingLoop_total (Func_chain rangeOrder vals idx n)
                ({[f]} ∪ pendingSet st) (Func_chain_spec n)) with
      (ts := rangeOrder (Func_args f vals)) (chain := chain) (st := st1)
      as (st2 & r2 & Hloop & Hok); [|done|done|].
    { intros m ch s Hg HP Hm Hmp.
      destruct (IH m ch s Hg) as (s' & r & Heq & Hr).
      - by rewrite HP.
      - rewrite HP. pose proof (offPath_insert mappers m _ Hm Hmp). lia.
      - exists s', r. split; [done|]. by rewrite HP in Hr. }
    rewrite Hloop. eexists _, _. split; [done|].
    intros Hro Hres. destruct Hok as [c ->]; [done| |by eexists].
    intros t Ht. inversion Hres as [V g Hall]; subst.
    destruct (Hall t (Hro _ _ Ht)) as (m & Hm & Hk & Hmp & Hr).
    exists m. split; [by apply elem_of_mapperIndex|done].
Qed.

End ChainSearch.
(** ** Func.Chain: when it returns and what it returns *)

Lemma good_empty vals : good vals {| chainSet := ∅; pendingSet := ∅ |}.
Proof. split; simpl; intros g Hg; by apply not_elem_of_empty in Hg. Qed.

Lemma offPath_singleton mappers f : offPath mappers ({[f]} ∪ ∅) ≤ length mappers.
Proof. apply offPath_le. Qed.

(** [Func.Chain] returns whenever the fuel exceeds the size of the
    library; it returns a chain exactly for the targets that are
    resolvable off the path that holds the target alone, and otherwise
    an error naming one of the target's own missing types. *)
Lemma Func_Chain_resolves rangeOrder fuel f mappers vals :
  length mappers < fuel →
  ∃ b, Func_Chain rangeOrder fuel f mappers vals = Some b ∧
    ((∀ l, rangeOrder l ≡ₚ l) →
     ((∃ c, b = Built c) ↔
      Resolvable (λ g, Func_args g (vals ++ Values f)) mappers {[f]} f)) ∧
    (∀ e, b = Failed e →
       ∃ t, t ∈ rangeOrder (Func_args f (vals ++ Values f)) ∧ e = unableToMap t).
Proof.
  intros Hfuel. unfold Func_Chain. case_bool_decide as Hlen.
  - eexists. split; [done|]. split; [|done]. intros _. split; [|by eexists].
    intros _. apply Resolvable_no_needs. by apply length_zero_iff_nil.
  - set (vals' := vals ++ Values f). set (st0 := {| chainSet := ∅; pendingSet := ∅ |}).
    destruct (Func_chain_total rangeOrder vals' mappers fuel f [] st0)
      as (st' & r & Heq & Hok).
    { apply good_empty. }
    { apply not_elem_of_empty. }
    { pose proof (offPath_singleton mappers f). simpl. lia. }
    rewrite Heq.
    destruct (Func_chain_spec rangeOrder vals' mappers fuel f [] st0 st' r)
      as (_ & _ & _ & Hsound & Herr); [apply good_empty|apply not_elem_of_empty|done|].
    simpl in Hsound, Hok.
    rewrite (right_id_L ∅ (∪)) in Hsound. rewrite (right_id_L ∅ (∪)) in Hok.
    destruct r as [c|e].
    + eexists. split; [done|]. split; [|done]. intros Hro. split; [|by eexists].
      intros _. apply (Hsound ltac:(by intros l t Ht; rewrite Hro) c eq_refl).
    + eexists. split; [done|]. split.
      * intros Hro. split; [by intros [c [=]]|].
        intros Hres. destruct Hok as [c [=]]; [|done].
        intros l t Ht. by rewrite Hro in Ht.
      * intros e' [= <-]. by apply Herr.
Qed.

(** ** Func.args *)

Lemma argsLoop_elem l vals acc t :
  t ∈ argsLoop l vals acc →
  t ∈ acc ∨ (t ∈ l ∧ existsb (matches t) vals = false).
Proof.
  revert acc. induction l as [|a l IH]; intros acc; simpl; [by left|].
  destruct (existsb (matches a) vals) eqn:Hm.
  - intros [H1|[H1 H2]]%IH; [by left|right]. split; [by right|done].
  - destruct (keyIn a acc).
    + intros [H1|[H1 H2]]%IH; [by left|right]. split; [by right|done].
    + intros [[H1 | -> %list_elem_of_singleton]%elem_of_app | [H1 H2]]%IH.
      * by left.
      * right. split; [left|done].
      * right. split; [by right|done].
Qed.

Lemma keyIn_elem t l : keyIn t l = true ↔ ∃ u, u ∈ l ∧ Key u = Key t.
Proof.
  unfold keyIn. rewrite existsb_exists. split.
  - intros (u & Hu & Hk). exists u. split; [by apply list_elem_of_In|].
    by apply bool_decide_eq_true in Hk.
  - intros (u & Hu & Hk). exists u. split; [by apply list_elem_of_In|].
    by apply bool_decide_eq_true.
Qed.

Lemma argsLoop_acc l vals acc t :
  t ∈ acc → t ∈ argsLoop l vals acc.
Proof.
  revert acc. induction l as [|a l IH]; intros acc Ht; simpl; [done|].
  destruct (existsb (matches a) vals); [by apply IH|].
  destruct (keyIn a acc); apply IH; [done|]. apply elem_of_app. by left.
Qed.

Lemma argsLoop_covers l vals acc t :
  t ∈ l → existsb (matches t) vals = false →
  ∃ u, u ∈ argsLoop l vals acc ∧ Key u = Key t.
Proof.
  revert acc. induction l as [|a l IH]; intros acc Ht Hm; simpl.
  - by apply elem_of_nil in Ht.
  - apply elem_of_cons in Ht as [<-|Ht].
    + rewrite Hm. destruct (keyIn t acc) eqn:Hk.
      * apply keyIn_elem in Hk as (u & Hu & Hk). exists u.
        split; [by apply argsLoop_acc|done].
      * exists t. split; [|done]. apply argsLoop_acc, elem_of_app. right. left.
    + destruct (existsb (matches a) vals); [by apply IH|].
      destruct (keyIn a acc); by apply IH.
Qed.

Lemma Func_args_elem f vals t :
  t ∈ Func_args f vals → t ∈ Args f ∧ existsb (matches t) vals = false.
Proof.
  intros [Ht|Ht]%argsLoop_elem; [by apply elem_of_nil in Ht|done].
Qed.

Lemma Func_args_covers f vals t :
  t ∈ Args f → existsb (matches t) vals = false →
  ∃ u, u ∈ Func_args f vals ∧ Key u = Key t.
Proof. apply argsLoop_covers. Qed.
(** ** Func.Chain: unresolvable types and cycles *)






(** In that run the int is visited first and resolved by [M1]; the
    iteration stops at the string, which is the type named. *)
Example Func_Chain_names_unproduced_string :
  Func_Chain id 3 Ex.T [Ex.M1] [] =
    Some (Failed "unable to map to string"%string).
Proof. vm_compute. reflexivity. Qed.

Lemma cycle_unresolvable vals mappers A B tA tB :
  tA ∈ Args A → tB ∈ Args B →
  existsb (matches tA) vals = false →
  existsb (matches tB) vals = false →
  (∀ m, m ∈ mappers → Key (Out m) = Key tA → m = B) →
  (∀ m, m ∈ mappers → Key (Out m) = Key tB → m = A) →
  ∀ V g u, u ∈ Func_args g vals → Key u = Key tA →
    ¬ Resolvable (λ g, Func_args g vals) mappers V g.
Proof.
  intros HtA HtB HmA HmB HonlyB HonlyA V g u Hu Hku Hg.
  destruct (Resolvable_inv _ _ _ _ Hg u Hu) as (m & Hm & Hk & _ & HresB).
  rewrite Hku in Hk. apply (HonlyB m Hm) in Hk as ->.
  destruct (Func_args_covers _ _ _ HtB HmB) as (uB & HuB & HkB).
  destruct (Resolvable_inv _ _ _ _ HresB uB HuB) as (m & Hm' & Hk & _ & HresA).
  rewrite HkB in Hk. apply (HonlyA m Hm') in Hk as ->.
  destruct (Func_args_covers _ _ _ HtA HmA) as (uA & HuA & HkA).
  destruct (Resolvable_inv _ _ _ _ HresA uA HuA) as (m & Hm'' & Hk & Hpath & _).
  rewrite HkA in Hk. apply (HonlyB m Hm'') in Hk as ->.
  apply Hpath. apply elem_of_union. right.
  apply elem_of_union. left. by apply elem_of_singleton.
Qed.

(** C6.  Let [A] need a type that only [B] produces, and [B] a type that
    only [A] produces, neither covered by the values.  Then [Func.Chain]
    returns for every target, whatever else the library holds: fuel
    beyond the size of the library is never used up.  And it returns an
    error for every target that misses one of the two types, so for [A]
    and for [B] in particular. *)
Theorem Func_Chain_cycle_fails rangeOrder fuel A B tA tB mappers vals target :
  (∀ l, rangeOrder l ≡ₚ l) → length mappers < fuel →
  tA ∈ Args A → tB ∈ Args B →
  existsb (matches tA) (vals ++ Values target) = false →
  existsb (matches tB) (vals ++ Values target) = false →
  (∀ m, m ∈ mappers → Key (Out m) = Key tA → m = B) →
  (∀ m, m ∈ mappers → Key (Out m) = Key tB → m = A) →
  is_Some (Func_Chain rangeOrder fuel target mappers vals) ∧
  (∀ t, t ∈ Args target →
        existsb (matches t) (vals ++ Values target) = false →
        Key t = Key tA ∨ Key t = Key tB →
        ∃ e, Func_Chain rangeOrder fuel target mappers vals = Some (Failed e)).
Proof.
  intros Hro Hfuel HtA HtB HmA HmB HonlyB HonlyA.
  destruct (Func_Chain_resolves rangeOrder fuel target mappers vals Hfuel)
    as (b & Heq & Hres & _).
  rewrite Heq. split; [done|]. intros t Ht Hmt Hkey.
  destruct b as [c|e]; [|by exists e]. exfalso.
  pose proof (proj1 (Hres Hro) ltac:(by eexists)) as HR.
  destruct (Func_args_covers _ _ _ Ht Hmt) as (u & Hu & Hku).
  destruct Hkey as [Hkey|Hkey].
  - apply (cycle_unresolvable _ mappers A B tA tB HtA HtB HmA HmB
             HonlyB HonlyA _ _ u Hu ltac:(congruence) HR).
  - apply (cycle_unresolvable _ mappers B A tB tA HtB HtA HmB HmA
             HonlyA HonlyB _ _ u Hu ltac:(congruence) HR).
Qed.

Lemma Func_Chain_cycle_fails_witness :
  is_Some (Func_Chain id 3 Ex.A [Ex.A; Ex.B] []) ∧
  ∃ e, Func_Chain id 3 Ex.A [Ex.A; Ex.B] [] = Some (Failed e).
Proof.
  destruct (Func_Chain_cycle_fails id 3 Ex.A Ex.B Ex.tInt Ex.tString
              [Ex.A; Ex.B] [] Ex.A) as [Hsome Hfail].
  - intros l. reflexivity.
  - simpl. lia.
  - left.
  - left.
  - reflexivity.
  - reflexivity.
  - intros m Hm Hk. apply list_elem_of_In in Hm. simpl in Hm.
    destruct Hm as [<-|[<-|[]]]; [discriminate Hk|reflexivity].
  - intros m Hm Hk. apply list_elem_of_In in Hm. simpl in Hm.
    destruct Hm as [<-|[<-|[]]]; [reflexivity|discriminate Hk].
  - split; [exact Hsome|]. apply (Hfail Ex.tInt).
    + left.
    + reflexivity.
    + left. reflexivity.
Defined.

(** ** ChainTarget: the first accepted entry that resolves *)

Lemma ChainTarget_loop_first rangeOrder fuel check ms mappers vals :
  length mappers < fuel →
  ∃ r, ChainTarget_loop rangeOrder fuel check ms mappers vals = Some r ∧
    (r = None ↔
     ∀ m, m ∈ ms →
       ¬ (check (Out m) = true ∧
          ∃ c, Func_Chain rangeOrder fuel m mappers vals = Some (Built c))) ∧
    (∀ c, r = Some c →
       ∃ pre m post,
         ms = pre ++ m :: post ∧ check (Out m) = true ∧
         Func_Chain rangeOrder fuel m mappers vals = Some (Built c) ∧
         ∀ m', m' ∈ pre →
           ¬ (check (Out m') = true ∧
              ∃ c', Func_Chain rangeOrder fuel m' mappers vals = Some (Built c'))).
Proof.
  intros Hfuel. induction ms as [|m ms IH]; simpl.
  - eexists. split; [done|]. split; [|done]. split; [|done].
    intros _ m Hm. by apply elem_of_nil in Hm.
  - destruct IH as (r & Heq & Hnil & Hsome).
    assert (¬ (check (Out m) = true ∧
               ∃ c, Func_Chain rangeOrder fuel m mappers vals = Some (Built c)) →
            (r = None ↔
             ∀ m0, m0 ∈ m :: ms →
               ¬ (check (Out m0) = true ∧
                  ∃ c, Func_Chain rangeOrder fuel m0 mappers vals = Some (Built c))) ∧
            (∀ c, r = Some c →
               ∃ pre m0 post,
                 m :: ms = pre ++ m0 :: post ∧ check (Out m0) = true ∧
                 Func_Chain rangeOrder fuel m0 mappers vals = Some (Built c) ∧
                 ∀ m', m' ∈ pre →
                   ¬ (check (Out m') = true ∧
                      ∃ c', Func_Chain rangeOrder fuel m' mappers vals =
                              Some (Built c')))) as Hskip.
    { intros Hm. split.
      - rewrite Hnil. split.
        + intros Hall m0 [->|Hm0]%elem_of_cons; [done|by apply Hall].
        + intros Hall m0 Hm0. apply Hall. by right.
      - intros c Hc. destruct (Hsome c Hc) as (pre & m0 & post & -> & ? & ? & Hpre).
        exists (m :: pre), m0, post. split; [done|]. split; [done|]. split; [done|].
        intros m' [->|Hm']%elem_of_cons; [done|by apply Hpre]. }
    destruct (check (Out m)) eqn:Hcheck; simpl.
    + destruct (Func_Chain_resolves rangeOrder fuel m mappers vals Hfuel)
        as (b & Hb & _).
      rewrite Hb. destruct b as [c|e].
      * eexists. split; [done|]. split.
        -- split; [done|]. intros Hall. destruct (Hall m ltac:(left)).
           split; [done|by eexists].
        -- intros c' [= <-]. exists [], m, ms. split; [done|]. split; [done|].
           split; [done|]. intros m' Hm'. by apply elem_of_nil in Hm'.
      * exists r. split; [done|]. apply Hskip. intros [_ [c Hc]]. rewrite Hb in Hc. discriminate Hc.
    + exists r. split; [done|]. apply Hskip. by intros [[=] _].
Qed.

(** C7.  [ChainTarget] returns nil exactly when no library entry both
    passes the check on its output type and gets a chain from
    [Func.Chain] with the given values; otherwise it returns the chain
    that [Func.Chain] builds for the first such entry in library
    order. *)
Theorem ChainTarget_first_resolving rangeOrder fuel check mappers vals :
  length mappers < fuel →
  ∃ r, ChainTarget rangeOrder fuel check mappers vals = Some r ∧
    (r = None ↔
     ∀ m, m ∈ mappers →
       ¬ (check (Out m) = true ∧
          ∃ c, Func_Chain rangeOrder fuel m mappers vals = Some (Built c))) ∧
    (∀ c, r = Some c →
       ∃ pre m post,
         mappers = pre ++ m :: post ∧ check (Out m) = true ∧
         Func_Chain rangeOrder fuel m mappers vals = Some (Built c) ∧
         ∀ m', m' ∈ pre →
           ¬ (check (Out m') = true ∧
              ∃ c', Func_Chain rangeOrder fuel m' mappers vals = Some (Built c'))).
Proof. apply ChainTarget_loop_first. Qed.

Lemma ChainTarget_first_resolving_witness :
  ∃ r, ChainTarget id 3 (λ t, bool_decide (Key t = 2)) [Ex.M1; Ex.M2] [] = Some r ∧
    (r = None ↔
     ∀ m, m ∈ [Ex.M1; Ex.M2] →
       ¬ (bool_decide (Key (Out m) = 2) = true ∧
          ∃ c, Func_Chain id 3 m [Ex.M1; Ex.M2] [] = Some (Built c))) ∧
    (∀ c, r = Some c →
       ∃ pre m post,
         [Ex.M1; Ex.M2] = pre ++ m :: post ∧ bool_decide (Key (Out m) = 2) = true ∧
         Func_Chain id 3 m [Ex.M1; Ex.M2] [] = Some (Built c) ∧
         ∀ m', m' ∈ pre →
           ¬ (bool_decide (Key (Out m') = 2) = true ∧
              ∃ c', Func_Chain id 3 m' [Ex.M1; Ex.M2] [] = Some (Built c'))).
Proof.
  apply (ChainTarget_first_resolving id 3 (λ t, bool_decide (Key t = 2))
           [Ex.M1; Ex.M2] []).
  simpl. lia.
Defined.
(** ** Func.chain depends on the iteration order only through the maps it ranges over *)

Lemma tryMappers_ext rec rec' ms chain st :
  (∀ m ch s, m ∈ ms → rec m ch s = rec' m ch s) →
  tryMappers rec ms chain st = tryMappers rec' ms chain st.
Proof.
  revert st. induction ms as [|m ms IH]; intros st Hrec; simpl; [done|].
  rewrite <- (Hrec m chain st) by left.
  case_bool_decide; [apply IH; intros; apply Hrec; by right|].
  destruct (rec m chain st) as [[st1 [next|e]]|]; try done.
  apply IH. intros. apply Hrec. by right.
Qed.

Lemma missingLoop_ext idx rec rec' ts chain st :
  (∀ k m ch s, m ∈ idx !!! k → rec m ch s = rec' m ch s) →
  missingLoop idx rec ts chain st = missingLoop idx rec' ts chain st.
Proof.
  intros Hrec. revert chain st.
  induction ts as [|t ts IH]; intros chain st; simpl; [done|].
  case_bool_decide; [|done]. destruct (called _ st); [apply IH|].
  rewrite (tryMappers_ext rec rec') by (intros; by eapply Hrec).
  destruct (tryMappers rec' _ chain st) as [[st1 [next|]]|]; try done.
Qed.

Lemma Func_chain_ext ro ro' vals mappers fuel f chain st :
  (∀ g, g ∈ mappers → ro (Func_args g vals) = ro' (Func_args g vals)) →
  ro (Func_args f vals) = ro' (Func_args f vals) →
  Func_chain ro vals (mapperIndex mappers) fuel f chain st =
  Func_chain ro' vals (mapperIndex mappers) fuel f chain st.
Proof.
  intros Hms. revert f chain st.
  induction fuel as [|n IH]; intros f chain st Hf; simpl; [done|].
  case_bool_decide; [done|]. rewrite Hf.
  rewrite (missingLoop_ext _ (Func_chain ro vals (mapperIndex mappers) n)
             (Func_chain ro' vals (mapperIndex mappers) n)); [done|].
  intros k m ch s [Hm _]%elem_of_mapperIndex. apply IH, Hms, Hm.
Qed.

Lemma Func_Chain_ext ro ro' fuel f mappers vals :
  (∀ g, g ∈ f :: mappers →
     ro (Func_args g (vals ++ Values f)) = ro' (Func_args g (vals ++ Values f))) →
  Func_Chain ro fuel f mappers vals = Func_Chain ro' fuel f mappers vals.
Proof.
  intros H. unfold Func_Chain. case_bool_decide; [done|].
  rewrite (Func_chain_ext ro ro'); [done| |].
  - intros g Hg. apply H. by right.
  - apply H. left.
Qed.

Lemma rangeOrder_nil rangeOrder :
  (∀ l : list Type_, rangeOrder l ≡ₚ l) → rangeOrder [] = [].
Proof. intros Hro. apply Permutation_nil. symmetry. apply Hro. Qed.

Lemma rangeOrder_one rangeOrder (a : Type_) :
  (∀ l, rangeOrder l ≡ₚ l) → rangeOrder [a] = [a].
Proof.
  intros Hro. specialize (Hro [a]). symmetry in Hro.
  by apply Permutation_length_1_inv in Hro.
Qed.

Lemma rangeOrder_two rangeOrder (a b : Type_) :
  (∀ l, rangeOrder l ≡ₚ l) →
  rangeOrder [a; b] = [a; b] ∨ rangeOrder [a; b] = [b; a].
Proof.
  intros Hro. specialize (Hro [a; b]). symmetry in Hro.
  by apply Permutation_length_2_inv in Hro.
Qed.

(** ** A chain that holds a mapper twice *)

(** C1 does not hold of the code.  The target [T] misses an int and a
    string; [MX] produces the int from a bool, [M2] the string from an
    int, [MZ] the bool.  [MX] joins the chain through the second return
    of [Func.chain], which, unlike the first, does not enter it in
    [chainSet]; so the second consumer of the int calls [MX] again.  In
    whatever order the missing types are visited, [Func.Chain] returns a
    chain in which [MX] occurs twice. *)
Theorem Func_Chain_repeats_mapper rangeOrder :
  (∀ l, rangeOrder l ≡ₚ l) →
  ∃ c, Func_Chain rangeOrder 4 Ex.T [Ex.MX; Ex.M2; Ex.MZ] [] = Some (Built c) ∧
       ¬ NoDup (funcs c).
Proof.
  intros Hro.
  pose proof (rangeOrder_nil rangeOrder Hro) as H0.
  pose proof (rangeOrder_one rangeOrder Ex.tBool Hro) as H1.
  pose proof (rangeOrder_one rangeOrder Ex.tInt Hro) as H2.
  destruct (rangeOrder_two rangeOrder Ex.tInt Ex.tString Hro) as [H3|H3].
  - exists {| funcs := [Ex.MZ; Ex.MX; Ex.MX; Ex.M2; Ex.T]; values := [] |}. split.
    + rewrite (Func_Chain_ext rangeOrder id); [by vm_compute|].
      intros g Hg. apply list_elem_of_In in Hg. simpl in Hg.
      destruct Hg as [<-|[<-|[<-|[<-|[]]]]]; done.
    + simpl. intros Hnd. apply NoDup_cons in Hnd as [_ Hnd].
      apply NoDup_cons in Hnd as [Hnd _]. apply Hnd. left.
  - exists {| funcs := [Ex.MZ; Ex.MX; Ex.M2; Ex.MX; Ex.T]; values := [] |}. split.
    + rewrite (Func_Chain_ext rangeOrder (@rev _)); [by vm_compute|].
      intros g Hg. apply list_elem_of_In in Hg. simpl in Hg.
      destruct Hg as [<-|[<-|[<-|[<-|[]]]]]; done.
    + simpl. intros Hnd. apply NoDup_cons in Hnd as [_ Hnd].
      apply NoDup_cons in Hnd as [Hnd _]. apply Hnd. right. left.
Qed.

Lemma Func_Chain_repeats_mapper_witness :
  ∃ c, Func_Chain id 4 Ex.T [Ex.MX; Ex.M2; Ex.MZ] [] = Some (Built c) ∧
       ¬ NoDup (funcs c).
Proof.
  apply (Func_Chain_repeats_mapper id). intros l. reflexivity.
Defined.
(** ** Func.inputSet: what a call leaves behind *)

Lemma matches_key t u v : Key t = Key u → matches t v = matches u v.
Proof. intros H. destruct v; simpl; [done|]. by rewrite H. Qed.

Lemma existsb_matches_key t u vals :
  Key t = Key u → existsb (matches t) vals = existsb (matches u) vals.
Proof.
  intros H. induction vals as [|v vals IH]; simpl; [done|].
  by rewrite IH, (matches_key t u v H).
Qed.

Lemma accepted_empty check : accepted check ∅.
Proof. intros k u H. by rewrite lookup_empty in H. Qed.

Lemma accepted_insert check p t :
  accepted check p → check t = true → accepted check (<[Key t := t]> p).
Proof.
  intros Hp Ht k u. destruct (decide (Key t = k)) as [<-|Hne].
  - rewrite lookup_insert_eq. by intros [= <-].
  - rewrite lookup_insert_ne by done. apply Hp.
Qed.

Lemma covers_weaken vals p q : p ⊆ q → covers vals q → covers vals p.
Proof. intros Hsub Hq k u Hk. apply (Hq k). by eapply lookup_weaken. Qed.

Lemma inputArgs_spec check l missing pending missing' pending' :
  inputArgs check l missing pending = (missing', pending') →
  accepted check pending →
  accepted check pending' ∧ pending ⊆ pending' ∧
  (∀ k, is_Some (missing !! k) → is_Some (missing' !! k)) ∧
  (∀ t, t ∈ l → is_Some (pending' !! Key t) ∨ is_Some (missing' !! Key t)) ∧
  (∀ k, is_Some (missing' !! k) →
     is_Some (missing !! k) ∨ ∃ t, t ∈ l ∧ Key t = k ∧ check t = false).
Proof.
  revert missing pending.
  induction l as [|a l IH]; intros missing pending; simpl.
  - intros [= <- <-] Hacc. split; [done|]. split; [done|]. split; [done|].
    split; [|by left]. intros t Ht. by apply elem_of_nil in Ht.
  - case_bool_decide as Hpend.
    + intros Heq Hacc.
      destruct (IH _ _ Heq Hacc) as (Hacc' & Hsub & Hmiss & Hall & Hsrc).
      split; [done|]. split; [done|]. split; [done|]. split.
      * intros t [->|Ht]%elem_of_cons; [|by apply Hall].
        left. by eapply lookup_weaken_is_Some.
      * intros k Hk. destruct (Hsrc k Hk) as [?|(t & ? & ? & ?)]; [by left|].
        right. exists t. split; [by right|done].
    + destruct (check a) eqn:Hcheck; simpl.
      * intros Heq Hacc.
        destruct (IH _ _ Heq (accepted_insert _ _ _ Hacc Hcheck))
          as (Hacc' & Hsub & Hmiss & Hall & Hsrc).
        assert (pending ⊆ <[Key a := a]> pending) as Hins.
        { apply insert_subseteq. apply eq_None_not_Some. done. }
        split; [done|]. split; [by etrans|]. split; [done|]. split.
        -- intros t [->|Ht]%elem_of_cons; [|by apply Hall].
           left. eapply lookup_weaken_is_Some; [|exact Hsub]. by rewrite lookup_insert_eq.
        -- intros k Hk. destruct (Hsrc k Hk) as [?|(t & ? & ? & ?)]; [by left|].
           right. exists t. split; [by right|done].
      * intros Heq Hacc.
        destruct (IH _ _ Heq Hacc) as (Hacc' & Hsub & Hmiss & Hall & Hsrc).
        split; [done|]. split; [done|]. split; [|split].
        -- intros k Hk. apply Hmiss. destruct (decide (Key a = k)) as [<-|Hne].
           ++ by rewrite lookup_insert_eq.
           ++ by rewrite lookup_insert_ne.
        -- intros t [->|Ht]%elem_of_cons; [|by apply Hall].
           right. apply Hmiss. by rewrite lookup_insert_eq.
        -- intros k Hk. destruct (Hsrc k Hk) as [Hk'|(t & ? & ? & ?)].
           ++ destruct (decide (Key a = k)) as [<-|Hne].
              ** right. exists a. split; [left|done].
              ** left. by rewrite lookup_insert_ne in Hk'.
           ++ right. exists t. split; [by right|done].
Qed.

Section InputSearch.
Variable mappers : list Func.
Variable check : Type_ → bool.

Local Notation "'inputSpec'" := (inputSpec mappers check).
Local Notation "'inputTotal'" := (inputTotal mappers check).

Lemma visited_restore (m : Func) (V : gset Func) :
  m ∉ V → ({[m]} ∪ V) ∖ {[m]} = V.
Proof.
  intros Hm. apply set_eq. intros g.
  rewrite elem_of_difference, elem_of_union, elem_of_singleton.
  split; [tauto|]. intros Hg. split; [by right|]. by intros ->.
Qed.

Section InputLoop.
Variable rec : Func → gset Func → gmap nat Type_ →
               option (gset Func * option (gmap nat Type_)).
Hypothesis rec_spec : inputSpec rec.

Lemma inputMappers_spec ms V missing pending V' r :
  accepted check pending →
  inputMappers rec ms V missing pending = Some (V', r) →
  V' = V ∧
  ∀ res, r = Some res →
    accepted check res ∧ pending ⊆ res ∧
    ∀ k, is_Some (missing !! k) →
      ∃ m, m ∈ ms ∧ Key (Out m) = k ∧ (m ∉ V) ∧
        (∀ vals, covers vals res →
           Resolvable (λ g, Func_args g vals) mappers ({[m]} ∪ V) m) ∧
        (keyRespecting check →
           Resolvable (unsupplied check) mappers ({[m]} ∪ V) m).
Proof.
  revert missing pending.
  induction ms as [|m ms IH]; intros missing pending Hacc; simpl.
  - intros [= <- <-]. split; [done|]. by intros res.
  - assert (∀ missing0 pending0,
              accepted check pending0 → pending ⊆ pending0 →
              (∀ k, is_Some (missing !! k) → k ≠ Key (Out m) →
                    is_Some (missing0 !! k)) →
              (is_Some (missing !! Key (Out m)) →
               is_Some (missing0 !! Key (Out m)) ∨
               ((m ∉ V) ∧
                (∀ vals, covers vals pending0 →
                   Resolvable (λ g, Func_args g vals) mappers ({[m]} ∪ V) m) ∧
                (keyRespecting check →
                   Resolvable (unsupplied check) mappers ({[m]} ∪ V) m))) →
              inputMappers rec ms V missing0 pending0 = Some (V', r) →
              V' = V ∧
              ∀ res, r = Some res →
                accepted check res ∧ pending ⊆ res ∧
                ∀ k, is_Some (missing !! k) →
                  ∃ m0, m0 ∈ m :: ms ∧ Key (Out m0) = k ∧ (m0 ∉ V) ∧
                    (∀ vals, covers vals res →
                       Resolvable (λ g, Func_args g vals) mappers ({[m0]} ∪ V) m0) ∧
                    (keyRespecting check →
                       Resolvable (unsupplied check) mappers ({[m0]} ∪ V) m0))
      as Hrest.
    { intros missing0 pending0 Hacc0 Hsub0 Hother Hkey Heq.
      destruct (IH _ _ Hacc0 Heq) as (-> & Hres). split; [done|].
      intros res ->. destruct (Hres res eq_refl) as (Hacc' & Hsub' & Hwit).
      split; [done|]. split; [by etrans|]. intros k Hk.
      destruct (decide (k = Key (Out m))) as [->|Hne].
      - destruct (Hkey Hk) as [Hk0|(HmV & Hvals & Hchk)].
        + destruct (Hwit _ Hk0) as (m0 & ? & ? & ? & ? & ?).
          exists m0. split; [by right|done].
        + exists m. split; [left|]. split; [done|]. split; [done|].
          split; [|done]. intros vals Hcov. apply Hvals.
          by eapply covers_weaken.
      - destruct (Hwit _ (Hother k Hk Hne)) as (m0 & ? & ? & ? & ? & ?).
        exists m0. split; [by right|done]. }
    case_bool_decide as Hvis.
    { apply Hrest; [done|done|by intros|by left]. }
    case_bool_decide as Hmiss; simpl.
    2:{ apply Hrest; [done|done|by intros|by left]. }
    destruct (rec m ({[m]} ∪ V) pending) as [[V1 r1]|] eqn:Hrec; [|done].
    destruct (rec_spec _ _ _ _ _ Hacc Hrec) as (-> & Hr1).
    rewrite (visited_restore m V Hvis).
    destruct r1 as [result|].
    2:{ apply Hrest; [done|done|by intros|by left]. }
    destruct (Hr1 result eq_refl) as (Hacc1 & Hsub1 & Hvals1 & Hchk1).
    case_bool_decide as Hsize.
    + intros [= <- <-]. split; [done|]. intros res [= <-].
      split; [done|]. split; [done|]. intros k Hk.
      destruct (decide (k = Key (Out m))) as [->|Hne].
      * exists m. split; [left|]. done.
      * apply map_size_empty_iff in Hsize.
        assert (is_Some (delete (Key (Out m)) missing !! k)) as Hdel
          by (by rewrite lookup_delete_ne).
        rewrite Hsize, lookup_empty in Hdel. by destruct Hdel.
    + apply Hrest; [done|done| |].
      * intros k Hk Hne. by rewrite lookup_delete_ne.
      * intros _. right. done.
Qed.
End InputLoop.

Lemma Func_inputSet_spec fuel : inputSpec (Func_inputSet mappers check fuel).
Proof.
  induction fuel as [|n IH]; intros f V input V' r Hacc; simpl; [done|].
  destruct (inputArgs check (Args f) ∅ input) as [missing pending] eqn:Hargs.
  destruct (inputArgs_spec _ _ _ _ _ _ Hargs Hacc)
    as (Hacc' & Hsub & _ & Hall & Hsrc).
  assert (∀ res,
            accepted check res → pending ⊆ res →
            (∀ k, is_Some (missing !! k) →
               ∃ m, m ∈ mappers ∧ Key (Out m) = k ∧ (m ∉ V) ∧
                 (∀ vals, covers vals res →
                    Resolvable (λ g, Func_args g vals) mappers ({[m]} ∪ V) m) ∧
                 (keyRespecting check →
                    Resolvable (unsupplied check) mappers ({[m]} ∪ V) m)) →
            (∀ vals, covers vals res →
               Resolvable (λ g, Func_args g vals) mappers V f) ∧
            (keyRespecting check → Resolvable (unsupplied check) mappers V f))
    as Hbuild.
  { intros res Hres Hsubres Hwit. split.
    - intros vals Hcov. constructor. intros t [Ht Hun]%Func_args_elem.
      destruct (Hall t Ht) as [[u Hu]|Hk].
      + pose proof (lookup_weaken _ _ _ _ Hu Hsubres) as Hu'.
        destruct (Hres _ _ Hu') as [Hku _].
        rewrite (existsb_matches_key t u vals (eq_sym Hku)) in Hun.
        by rewrite (Hcov _ _ Hu') in Hun.
      + destruct (Hwit _ Hk) as (m & Hm & Hkm & HmV & Hvals & _).
        exists m. split; [done|]. split; [done|]. split; [done|]. by apply Hvals.
    - intros Hkr. constructor. intros t Ht.
      apply list_elem_of_filter in Ht as [Hchk Ht].
      destruct (Hall t Ht) as [[u Hu]|Hk].
      + destruct (Hacc' _ _ Hu) as [Hku Hcu].
        rewrite (Hkr t u (eq_sym Hku)), Hcu in Hchk. done.
      + destruct (Hwit _ Hk) as (m & Hm & Hkm & HmV & _ & Hc).
        exists m. split; [done|]. split; [done|]. split; [done|]. by apply Hc. }
  case_bool_decide as Hsize.
  - intros [= <- <-]. split; [done|]. intros res [= <-].
    split; [done|]. split; [done|]. apply Hbuild; [done|done|].
    intros k Hk. apply map_size_empty_iff in Hsize.
    rewrite Hsize, lookup_empty in Hk. by destruct Hk.
  - intros Hloop.
    destruct (inputMappers_spec _ IH _ _ _ _ _ _ Hacc' Hloop) as (-> & Hres).
    split; [done|]. intros res ->.
    destruct (Hres res eq_refl) as (Haccr & Hsubr & Hwit).
    split; [done|]. split; [by etrans|]. by apply Hbuild.
Qed.

(** ** Func.inputSet: termination, and success on resolvable functions *)

Section InputLoopTotal.
Variable rec : Func → gset Func → gmap nat Type_ →
               option (gset Func * option (gmap nat Type_)).
Variable V0 : gset Func.
Hypothesis rec_spec : inputSpec rec.
Hypothesis rec_total : inputTotal rec V0.

Lemma inputMappers_total ms missing pending :
  (∀ m, m ∈ ms → m ∈ mappers) → accepted check pending →
  ∃ V' r, inputMappers rec ms V0 missing pending = Some (V', r) ∧
    (size missing ≠ 0 →
     (∀ k, is_Some (missing !! k) →
        ∃ m, m ∈ ms ∧ Key (Out m) = k ∧ (m ∉ V0) ∧
             Resolvable (unsupplied check) mappers ({[m]} ∪ V0) m) →
     is_Some r).
Proof.
  revert missing pending.
  induction ms as [|m ms IH]; intros missing pending Hms Hacc; simpl.
  - eexists _, _. split; [done|]. intros Hsize Hwit.
    destruct (map_choose_or_empty missing) as [(k & u & Hk) | ->].
    + destruct (Hwit k ltac:(by eexists)) as (m & Hm & _).
      by apply elem_of_nil in Hm.
    + by rewrite map_size_empty in Hsize.
  - assert (∀ m', m' ∈ ms → m' ∈ mappers) as Hms' by (intros; apply Hms; by right).
    assert (∀ pending0,
              accepted check pending0 →
              (is_Some (missing !! Key (Out m)) → m ∉ V0 →
               ¬ Resolvable (unsupplied check) mappers ({[m]} ∪ V0) m) →
              ∃ V' r, inputMappers rec ms V0 missing pending0 = Some (V', r) ∧
                (size missing ≠ 0 →
                 (∀ k, is_Some (missing !! k) →
                    ∃ m0, m0 ∈ m :: ms ∧ Key (Out m0) = k ∧ (m0 ∉ V0) ∧
                      Resolvable (unsupplied check) mappers ({[m0]} ∪ V0) m0) →
                 is_Some r)) as Hskip.
    { intros pending0 Hacc0 Hnot.
      destruct (IH missing pending0 Hms' Hacc0) as (V' & r & Heq & Hres).
      exists V', r. split; [done|]. intros Hsize Hwit. apply Hres; [done|].
      intros k Hk. destruct (Hwit k Hk) as (m0 & [->|Hm0]%elem_of_cons & Hk0 & HV & HR).
      - subst k. by destruct (Hnot Hk HV).
      - by exists m0. }
    case_bool_decide as Hvis.
    { apply Hskip; [done|]. by intros _ ?. }
    case_bool_decide as Hmiss; simpl.
    2:{ apply Hskip; [done|]. by intros ? _. }
    destruct (rec_total m pending (Hms m ltac:(left)) Hvis Hacc)
      as (V1 & r1 & Hrec & Hr1).
    rewrite Hrec. destruct (rec_spec _ _ _ _ _ Hacc Hrec) as (-> & Hspec).
    rewrite (visited_restore m V0 Hvis).
    destruct r1 as [result|].
    2:{ apply Hskip; [done|]. intros _ _ HR. by destruct (Hr1 HR). }
    destruct (Hspec result eq_refl) as (Hacc1 & _).
    case_bool_decide as Hsize.
    + eexists _, _. split; [done|]. by intros _ _.
    + destruct (IH (delete (Key (Out m)) missing) result Hms' Hacc1)
        as (V' & r & Heq & Hres).
      exists V', r. split; [done|]. intros _ Hwit. apply Hres; [done|].
      intros k Hk. destruct (decide (k = Key (Out m))) as [->|Hne].
      { rewrite lookup_delete_eq in Hk. by destruct Hk. }
      rewrite lookup_delete_ne in Hk by done.
      destruct (Hwit k Hk) as (m0 & [->|Hm0]%elem_of_cons & Hk0 & HV & HR);
        [done|by exists m0].
Qed.
End InputLoopTotal.

Lemma Func_inputSet_total fuel f V input :
  accepted check input → offPath mappers V < fuel →
  ∃ V' r, Func_inputSet mappers check fuel f V input = Some (V', r) ∧
    (Resolvable (unsupplied check) mappers V f → is_Some r).
Proof.
  revert f V input.
  induction fuel as [|n IH]; intros f V input Hacc Hfuel; [lia|]. simpl.
  destruct (inputArgs check (Args f) ∅ input) as [missing pending] eqn:Hargs.
  destruct (inputArgs_spec _ _ _ _ _ _ Hargs Hacc)
    as (Hacc' & Hsub & _ & Hall & Hsrc).
  case_bool_decide as Hsize.
  - eexists _, _. split; [done|]. by intros _.
  - destruct (inputMappers_total (Func_inputSet mappers check n) V
                (Func_inputSet_spec n)) with
      (ms := mappers) (missing := missing) (pending := pending)
      as (V' & r & Heq & Hres); [|done|done|].
    { intros m inp Hm HmV Hinp. apply IH; [done|].
      pose proof (offPath_insert mappers m V Hm HmV). lia. }
    exists V', r. split; [done|]. intros HR. apply Hres; [done|].
    intros k Hk. destruct (Hsrc k Hk) as [Hk'|(t & Ht & <- & Hchk)].
    { rewrite lookup_empty in Hk'. by destruct Hk'. }
    destruct (Resolvable_inv _ _ _ _ HR t) as (m & ? & ? & ? & ?).
    { apply list_elem_of_filter. done. }
    by exists m.
Qed.

End InputSearch.
(** ** Func.ChainInputSet *)

Lemma existsb_app_l {A} (p : A → bool) (l1 l2 : list A) :
  existsb p l1 = true → existsb p (l1 ++ l2) = true.
Proof. intros H. by rewrite existsb_app, H. Qed.

(** C3.  [Func.ChainInputSet] returns whenever the fuel exceeds the size
    of the library.  When it returns a list of types, [Func.Chain]
    builds a chain for the same target and library from any values that
    supply the types of the list.  For a check function that depends on
    the type key only, it returns nil exactly when the target is not
    resolvable: on every way of choosing producers along acyclic paths
    some argument is left that the check function rejects and no mapper
    off the path can be resolved for. *)
Theorem Func_ChainInputSet_guarantee mappers check rangeOrder fuel f :
  (∀ l, rangeOrder l ≡ₚ l) → length mappers < fuel →
  is_Some (Func_ChainInputSet mappers check rangeOrder fuel f) ∧
  (∀ L, Func_ChainInputSet mappers check rangeOrder fuel f = Some (Some L) →
     ∀ rangeOrder' fuel' vals,
       (∀ l, rangeOrder' l ≡ₚ l) → length mappers < fuel' →
       (∀ t, t ∈ L → existsb (matches t) vals = true) →
       ∃ c, Func_Chain rangeOrder' fuel' f mappers vals = Some (Built c)) ∧
  (keyRespecting check →
   (Func_ChainInputSet mappers check rangeOrder fuel f = Some None ↔
    ¬ Resolvable (unsupplied check) mappers ∅ f)).
Proof.
  intros Hro Hfuel. unfold Func_ChainInputSet.
  destruct (Func_inputSet_total mappers check fuel f ∅ ∅)
    as (V' & r & Heq & Htotal).
  { apply accepted_empty. }
  { pose proof (offPath_le mappers ∅). lia. }
  rewrite Heq.
  destruct (Func_inputSet_spec mappers check fuel f ∅ ∅ V' r
              (accepted_empty check) Heq) as (_ & Hspec).
  destruct r as [typeMap|].
  - destruct (Hspec typeMap eq_refl) as (Hacc & _ & Hvals & Hchk).
    split; [done|]. split.
    + intros L [= <-] rangeOrder' fuel' vals Hro' Hfuel' Hsup.
      destruct (Func_Chain_resolves rangeOrder' fuel' f mappers vals Hfuel')
        as (b & Hb & Hres & _).
      rewrite Hb. destruct (proj2 (Hres Hro')) as [c ->]; [|by exists c].
      apply Resolvable_target, Hvals. intros k u Hku.
      apply existsb_app_l, Hsup. rewrite Hro.
      apply list_elem_of_fmap. exists (k, u). split; [done|].
      by apply elem_of_map_to_list.
    + intros Hkr. split; [done|]. intros Hnot. destruct Hnot. by apply Hchk.
  - split; [done|]. split; [done|]. intros _. split; [|done].
    intros _ HR. by destruct (Htotal HR).
Qed.

Lemma Func_ChainInputSet_example :
  Func_ChainInputSet [Ex.M2] (λ t, bool_decide (Key t = 1)) id 2 Ex.T2 =
    Some (Some [Ex.tInt]).
Proof. vm_compute. reflexivity. Qed.

Lemma Func_ChainInputSet_guarantee_witness :
  ∃ c, Func_Chain id 2 Ex.T2 [Ex.M2] [Val 1 0] = Some (Built c).
Proof.
  destruct (Func_ChainInputSet_guarantee [Ex.M2] (λ t, bool_decide (Key t = 1))
              id 2 Ex.T2) as (_ & Hchain & _).
  - intros l. reflexivity.
  - simpl. lia.
  - apply (Hchain [Ex.tInt] Func_ChainInputSet_example id 2 [Val 1 0]).
    + intros l. reflexivity.
    + simpl. lia.
    + intros t Ht. apply list_elem_of_singleton in Ht. subst t. reflexivity.
Defined.
(** ** The worked examples *)

(** Target needs (int, string), no values, library [M1: () → int],
    [M2: (int) → string]: the chain is [M1, M2, T]. *)
Example Func_Chain_int_string :
  Func_Chain id 3 Ex.T [Ex.M1; Ex.M2] [] =
    Some (Built {| funcs := [Ex.M1; Ex.M2; Ex.T]; values := [] |}).
Proof. vm_compute. reflexivity. Qed.

(** Target needs (float64), empty library, no values. *)
Example Func_Chain_float_unresolvable :
  Func_Chain id 1 Ex.TF [] [] = Some (Failed "unable to map to float64"%string).
Proof. vm_compute. reflexivity. Qed.

(** The target misses an int and a string and the library is empty:
    neither type has a producer, and the error names the one that the
    iteration reaches first. *)
Example Func_Chain_names_first_missing :
  Func_Chain id 1 Ex.T [] [] = Some (Failed "unable to map to int"%string) ∧
  Func_Chain (@rev _) 1 Ex.T [] [] =
    Some (Failed "unable to map to string"%string).
Proof. split; vm_compute; reflexivity. Qed.

(** The check accepts int only, the target needs (string), library
    [M2: (int) → string]: the input set is [int]. *)
Example Func_ChainInputSet_int :
  Func_ChainInputSet [Ex.M2] (λ t, bool_decide (Key t = 1)) id 2 Ex.T2 =
    Some (Some [Ex.tInt]).
Proof. vm_compute. reflexivity. Qed.

(** With a check that accepts nothing the same query has no answer. *)
Example Func_ChainInputSet_nil :
  Func_ChainInputSet [Ex.M2] (λ _, false) id 2 Ex.T2 = Some None.
Proof. vm_compute. reflexivity. Qed.

(** Running [M1, M2] with [Ex.call]: [M1] is executed and its int stays
    in the pool, [M2] fails, nothing else is executed. *)
Example Chain_Call_M1_M2 :
  Chain_Call Ex.call Ex.chain12 =
    {| returned := (Nil, Some "boom"%string);
       after := {| funcs := [Ex.M1; Ex.M2]; values := [Val 1 7] |};
       executed := [Ex.M1; Ex.M2] |}.
Proof. vm_compute. reflexivity. Qed.
(** ** Func.chain: the sets and the shape of the chain *)

Lemma chainInv_mono vals chain (cs cs' : gset Func) :
  cs ⊆ cs' → chainInv vals chain cs → chainInv vals chain cs'.
Proof. intros Hsub [Hnd Hin]. split; [done|]. intros g Hg Hn. by apply Hsub, Hin. Qed.

Lemma chainInv_snoc_missing vals chain cs f :
  Func_args f vals ≠ [] → chainInv vals chain cs → chainInv vals (chain ++ [f]) cs.
Proof.
  intros Hf [Hnd Hin]. split.
  - rewrite filter_app, filter_cons, filter_nil, decide_False by done.
    by rewrite (right_id_L [] (++)).
  - intros g [Hg|Hg%list_elem_of_singleton]%elem_of_app Hn; [by apply Hin|].
    by subst g.
Qed.

Lemma chainInv_snoc_complete vals chain (cs : gset Func) f :
  Func_args f vals = [] → f ∉ chain →
  chainInv vals chain cs → chainInv vals (chain ++ [f]) ({[f]} ∪ cs).
Proof.
  intros Hf Hnot [Hnd Hin]. split.
  - rewrite filter_app, filter_cons, filter_nil, decide_True by done.
    apply NoDup_app. split; [done|]. split; [|apply NoDup_singleton].
    intros g [_ Hg]%list_elem_of_filter ->%list_elem_of_singleton. done.
  - intros g [Hg|Hg%list_elem_of_singleton]%elem_of_app Hn.
    + apply elem_of_union. right. by apply Hin.
    + apply elem_of_union. left. by apply elem_of_singleton.
Qed.

Section ChainKeeps.
Variable rangeOrder : list Type_ → list Type_.
Variable vals : list iface.
Variable mappers : list Func.

Section LoopKeeps.
Variable rec : Func → list Func → State → option (State * result).
Hypothesis rec_keeps : chainKeeps vals mappers rec.

Lemma tryMappers_keeps ms chain st st' o :
  tryMappers rec ms chain st = Some (st', o) →
  chainSet st ⊆ chainSet st' ∧ pendingSet st' = pendingSet st ∧
  ∀ c, o = Some c →
    ∃ m mid, m ∈ ms ∧ c = chain ++ mid ++ [m] ∧ (∀ g, g ∈ mid → g ∈ mappers) ∧
      (chainInv vals chain (chainSet st) →
       (∀ m', m' ∈ ms → Func_args m' vals = [] → m' ∉ chain) →
       chainInv vals c (chainSet st')).
Proof.
  revert st. induction ms as [|m ms IH]; intros st; simpl.
  - intros [= <- <-]. split; [done|]. split; [done|]. by intros c.
  - case_bool_decide as Hpend.
    + intros H. destruct (IH _ H) as (Hcs & Hps & Hok).
      split; [done|]. split; [done|]. intros c ->.
      destruct (Hok c eq_refl) as (m' & mid & Hm' & Hc & Hmid & Hinv).
      exists m', mid. split; [by right|]. split; [done|]. split; [done|].
      intros Hi Hall. apply Hinv; [done|]. intros; apply Hall; [by right|done].
    + destruct (rec m chain st) as [[st1 [next|e]]|] eqn:Hrec; [| |done].
      * intros [= <- <-].
        destruct (rec_keeps _ _ _ _ _ Hrec) as (Hcs & Hps & Hok).
        split; [done|]. split; [by apply Hps|]. intros c [= <-].
        destruct (Hok next eq_refl) as (mid & Hc & Hmid & Hinv).
        exists m, mid. split; [left|]. split; [done|]. split; [done|].
        intros Hi Hall. apply Hinv; [done|]. apply Hall. left.
      * intros H.
        destruct (rec_keeps _ _ _ _ _ Hrec) as (Hcs1 & Hps1 & _).
        destruct (IH _ H) as (Hcs & Hps & Hok).
        split; [by etrans|]. split; [by rewrite Hps, Hps1|]. intros c ->.
        destruct (Hok c eq_refl) as (m' & mid & Hm' & Hc & Hmid & Hinv).
        exists m', mid. split; [by right|]. split; [done|]. split; [done|].
        intros Hi Hall. apply Hinv.
        -- by apply (chainInv_mono _ _ _ _ Hcs1).
        -- intros; apply Hall; [by right|done].
Qed.

Lemma called_false ms st m :
  called ms st = false → m ∈ ms → m ∉ chainSet st.
Proof.
  unfold called. intros Hc Hm Hin.
  assert (existsb (λ m, bool_decide (m ∈ chainSet st)) ms = true) as Ht.
  { apply existsb_exists. exists m. split; [by apply list_elem_of_In|].
    by apply bool_decide_eq_true. }
  by rewrite Hc in Ht.
Qed.

Lemma missingLoop_keeps ts chain st st' r :
  missingLoop (mapperIndex mappers) rec ts chain st = Some (st', r) →
  chainSet st ⊆ chainSet st' ∧ pendingSet st' = pendingSet st ∧
  ∀ c, r = Ok c →
    ∃ mid, c = chain ++ mid ∧ (∀ g, g ∈ mid → g ∈ mappers) ∧
      (chainInv vals chain (chainSet st) → chainInv vals c (chainSet st')).
Proof.
  revert chain st. induction ts as [|t ts IH]; intros chain st; simpl.
  - intros [= <- <-]. split; [done|]. split; [done|]. intros c [= <-].
    exists []. split; [by rewrite (right_id_L [] (++))|]. split; [|done].
    intros g Hg. by apply elem_of_nil in Hg.
  - case_bool_decide as Hlen.
    2:{ intros [= <- <-]. split; [done|]. split; [done|]. by intros c. }
    destruct (called _ st) eqn:Hcalled; [apply IH|].
    destruct (tryMappers rec _ chain st) as [[st1 [next|]]|] eqn:Htry; [| |done].
    + intros H.
      destruct (tryMappers_keeps _ _ _ _ _ Htry) as (Hcs1 & Hps1 & Hok1).
      destruct (IH _ _ H) as (Hcs & Hps & Hok).
      split; [by etrans|]. split; [by rewrite Hps, Hps1|]. intros c ->.
      destruct (Hok1 next eq_refl) as (m & mid1 & Hm & -> & Hmid1 & Hinv1).
      destruct (Hok c eq_refl) as (mid & -> & Hmid & Hinv).
      exists (mid1 ++ [m] ++ mid). split; [by rewrite <- !(assoc_L (++))|]. split.
      * intros g [Hg|[Hg%list_elem_of_singleton|Hg]%elem_of_app]%elem_of_app.
        -- by apply Hmid1.
        -- subst g. by apply elem_of_mapperIndex in Hm as [? _].
        -- by apply Hmid.
      * intros Hi. apply Hinv, Hinv1; [done|].
        intros m' Hm' Hn Hin. destruct Hi as [_ Hi].
        by apply (called_false _ _ _ Hcalled Hm'), Hi.
    + intros [= <- <-].
      destruct (tryMappers_keeps _ _ _ _ _ Htry) as (Hcs1 & Hps1 & _).
      split; [done|]. split; [done|]. by intros c.
Qed.
End LoopKeeps.

Lemma Func_chain_keeps fuel :
  chainKeeps vals mappers (Func_chain rangeOrder vals (mapperIndex mappers) fuel).
Proof.
  induction fuel as [|n IH]; intros f chain st st' r; simpl; [done|].
  case_bool_decide as Hlen.
  - intros [= <- <-]. apply length_zero_iff_nil in Hlen. simpl.
    split; [apply union_subseteq_r|]. split; [done|]. intros c [= <-].
    exists []. split; [done|]. split; [by intros g Hg%elem_of_nil|].
    intros Hi Hf. apply chainInv_snoc_complete; [done|by apply Hf|done].
  - destruct (missingLoop _ _ _ chain _) as [[st2 r2]|] eqn:Hloop; [|done].
    intros [= <- <-].
    destruct (missingLoop_keeps _ IH _ _ _ _ _ Hloop) as (Hcs & Hps & Hok).
    simpl in Hcs, Hps. simpl. split; [done|]. split.
    + intros Hf. rewrite Hps. apply set_eq. intros g.
      rewrite elem_of_difference, elem_of_union, elem_of_singleton.
      split; [tauto|]. intros Hg. split; [by right|]. by intros ->.
    + intros c Hc. destruct r2 as [c2|]; [|done]. injection Hc as <-.
      destruct (Hok c2 eq_refl) as (mid & -> & Hmid & Hinv).
      exists mid. split; [by rewrite <- (assoc_L (++))|]. split; [done|].
      intros Hi _. apply chainInv_snoc_missing.
      * intros Hnil. by rewrite Hnil in Hlen.
      * by apply Hinv.
Qed.

(** X1.  Every return of [Func.chain], with a chain or with an error,
    leaves [chainSet] at least as large as it found it; and a call on a
    function that is not pending leaves [pendingSet] exactly as it found
    it. *)
Theorem Func_chain_restores_pending fuel f chain st st' r :
  Func_chain rangeOrder vals (mapperIndex mappers) fuel f chain st = Some (st', r) →
  chainSet st ⊆ chainSet st' ∧
  (f ∉ pendingSet st → pendingSet st' = pendingSet st).
Proof.
  intros H. destruct (Func_chain_keeps fuel _ _ _ _ _ H) as (? & ? & _). done.
Qed.

(** X2.  A chain returned by [Func.chain] is the chain passed in,
    followed by library mappers, followed by the function itself:
    nothing already in the chain is dropped or reordered. *)
Theorem Func_chain_extends_chain fuel f chain st st' c :
  Func_chain rangeOrder vals (mapperIndex mappers) fuel f chain st =
    Some (st', Ok c) →
  ∃ mid, c = chain ++ mid ++ [f] ∧ ∀ g, g ∈ mid → g ∈ mappers.
Proof.
  intros H. destruct (Func_chain_keeps fuel _ _ _ _ _ H) as (_ & _ & Hok).
  destruct (Hok c eq_refl) as (mid & ? & ? & _). by exists mid.
Qed.

End ChainKeeps.

Lemma chainInv_nil vals cs : chainInv vals [] cs.
Proof. split; [apply NoDup_nil_2|]. by intros g Hg%elem_of_nil. Qed.

Lemma Func_Chain_shape rangeOrder fuel f mappers vals c :
  Func_Chain rangeOrder fuel f mappers vals = Some (Built c) →
  values c = vals ++ Values f ∧
  ∃ mid, funcs c = mid ++ [f] ∧ (∀ g, g ∈ mid → g ∈ mappers) ∧
         NoDup (filter (λ g, Func_args g (vals ++ Values f) = []) (funcs c)).
Proof.
  unfold Func_Chain. case_bool_decide as Hlen.
  - intros [= <-]. simpl. split; [done|]. exists []. split; [done|].
    split; [by intros g Hg%elem_of_nil|].
    rewrite filter_cons, filter_nil. destruct (decide _); [apply NoDup_singleton|apply NoDup_nil_2].
  - destruct (Func_chain _ _ _ _ _ _ _) as [[st' [ch|e]]|] eqn:Hch; try done.
    intros [= <-]. simpl. split; [done|].
    destruct (Func_chain_keeps rangeOrder (vals ++ Values f) mappers fuel
                _ _ _ _ _ Hch) as (_ & _ & Hok).
    destruct (Hok ch eq_refl) as (mid & -> & Hmid & Hinv).
    exists mid. split; [done|]. split; [done|].
    apply Hinv; [apply chainInv_nil|]. by intros _ Hin%elem_of_nil.
Qed.

(** X3.  A chain built by [Func.Chain] consists of library mappers
    followed by the target, and its value pool is the values passed in
    followed by the target's bound values. *)
Theorem Func_Chain_members rangeOrder fuel f mappers vals c :
  Func_Chain rangeOrder fuel f mappers vals = Some (Built c) →
  values c = vals ++ Values f ∧
  ∃ mid, funcs c = mid ++ [f] ∧ ∀ g, g ∈ mid → g ∈ mappers.
Proof.
  intros (Hv & mid & Hf & Hmid & _)%Func_Chain_shape. split; [done|]. by exists mid.
Qed.

(** X4.  In a chain built by [Func.Chain], a function all of whose
    arguments are covered by the values occurs at most once: this is the
    part of the duplicate guard that [chainSet] does provide. *)
Theorem Func_Chain_complete_functions_once rangeOrder fuel f mappers vals c :
  Func_Chain rangeOrder fuel f mappers vals = Some (Built c) →
  NoDup (filter (λ g, Func_args g (vals ++ Values f) = []) (funcs c)).
Proof. by intros (_ & mid & _ & _ & Hnd)%Func_Chain_shape. Qed.
(** ** Func.Chain: termination, iteration order, larger libraries, more values *)

Lemma Resolvable_mono needs needs' mappers mappers' V f :
  (∀ g t, t ∈ needs' g → ∃ u, u ∈ needs g ∧ Key u = Key t) →
  (∀ m, m ∈ mappers → m ∈ mappers') →
  Resolvable needs mappers V f → Resolvable needs' mappers' V f.
Proof.
  intros Hneeds Hlib. revert V f.
  apply (Resolvable_induction needs mappers
           (λ V f, Resolvable needs' mappers' V f)).
  intros V f IH. constructor. intros t Ht.
  destruct (Hneeds f t Ht) as (u & Hu & Hk).
  destruct (IH u Hu) as (m & Hm & Hkm & HV & _ & HR).
  exists m. split; [by apply Hlib|]. split; [congruence|]. done.
Qed.

Lemma existsb_false_subset {A} (p : A → bool) (l l' : list A) :
  (∀ x, x ∈ l → x ∈ l') → existsb p l' = false → existsb p l = false.
Proof.
  intros Hsub Hl'. destruct (existsb p l) eqn:Hl; [|done].
  apply existsb_exists in Hl as (x & Hx & Hp).
  assert (existsb p l' = true) as Ht.
  { apply existsb_exists. exists x. split; [|done].
    by apply list_elem_of_In, Hsub, list_elem_of_In. }
  by rewrite Hl' in Ht.
Qed.

Lemma Func_args_more_values f vals vals' t :
  (∀ v, v ∈ vals → v ∈ vals') →
  t ∈ Func_args f vals' → ∃ u, u ∈ Func_args f vals ∧ Key u = Key t.
Proof.
  intros Hsub [Ht Hm]%Func_args_elem. apply Func_args_covers; [done|].
  by apply (existsb_false_subset _ _ _ Hsub).
Qed.

Lemma Func_Chain_built_iff rangeOrder fuel f mappers vals :
  (∀ l, rangeOrder l ≡ₚ l) → length mappers < fuel →
  (∃ c, Func_Chain rangeOrder fuel f mappers vals = Some (Built c)) ↔
  Resolvable (λ g, Func_args g (vals ++ Values f)) mappers {[f]} f.
Proof.
  intros Hro Hfuel.
  destruct (Func_Chain_resolves rangeOrder fuel f mappers vals Hfuel)
    as (b & Hb & Hres & _).
  rewrite Hb, <- (Hres Hro). split; intros [c Hc]; exists c; congruence.
Qed.

(** X5.  [Func.Chain] returns for every target, library, value set and
    iteration order: fuel beyond the size of the library is never used
    up, so the depth of the recursion is bounded by the number of
    library entries. *)
Theorem Func_Chain_terminates rangeOrder fuel f mappers vals :
  length mappers < fuel →
  is_Some (Func_Chain rangeOrder fuel f mappers vals).
Proof.
  intros Hfuel.
  destruct (Func_Chain_resolves rangeOrder fuel f mappers vals Hfuel)
    as (b & Hb & _).
  by rewrite Hb.
Qed.

Lemma Func_Chain_terminates_witness :
  is_Some (Func_Chain (@rev _) 4 Ex.T [Ex.A; Ex.B; Ex.Mbad] []).
Proof.
  apply (Func_Chain_terminates (@rev _) 4 Ex.T [Ex.A; Ex.B; Ex.Mbad] []).
  simpl. lia.
Defined.

(** X6.  Whether [Func.Chain] returns a chain or an error does not
    depend on the order in which the missing maps are ranged over (nor
    on the fuel, once it exceeds the size of the library); only the
    chain found and the type named in the error may differ. *)
Theorem Func_Chain_success_order_independent
    rangeOrder rangeOrder' fuel fuel' f mappers vals :
  (∀ l, rangeOrder l ≡ₚ l) → (∀ l, rangeOrder' l ≡ₚ l) →
  length mappers < fuel → length mappers < fuel' →
  (∃ c, Func_Chain rangeOrder fuel f mappers vals = Some (Built c)) ↔
  (∃ c', Func_Chain rangeOrder' fuel' f mappers vals = Some (Built c')).
Proof.
  intros Hro Hro' Hfuel Hfuel'.
  by rewrite (Func_Chain_built_iff _ _ _ _ _ Hro Hfuel),
             (Func_Chain_built_iff _ _ _ _ _ Hro' Hfuel').
Qed.

Lemma rev_perm (l : list Type_) : rev l ≡ₚ l.
Proof. symmetry. apply Permutation_rev. Qed.

Lemma Func_Chain_success_order_independent_witness :
  (∃ c, Func_Chain id 4 Ex.T [Ex.MX; Ex.M2; Ex.MZ] [] = Some (Built c)) ↔
  (∃ c', Func_Chain (@rev _) 5 Ex.T [Ex.MX; Ex.M2; Ex.MZ] [] = Some (Built c')).
Proof.
  apply (Func_Chain_success_order_independent id (@rev _) 4 5 Ex.T
           [Ex.MX; Ex.M2; Ex.MZ] []).
  - intros l. reflexivity.
  - apply rev_perm.
  - simpl. lia.
  - simpl. lia.
Defined.

(** X7.  Every error that [Func.Chain] returns reads "unable to map to"
    followed by the name of an argument type of the target itself that
    no value matches; a type missed only by a mapper deeper in the search
    is never the one reported. *)
Theorem Func_Chain_error_names_target_argument
    rangeOrder fuel f mappers vals e :
  (∀ l, rangeOrder l ≡ₚ l) →
  Func_Chain rangeOrder fuel f mappers vals = Some (Failed e) →
  ∃ t, t ∈ Args f ∧ existsb (matches t) (vals ++ Values f) = false ∧
       e = unableToMap t.
Proof.
  intros Hro. unfold Func_Chain. case_bool_decide as Hlen; [done|].
  destruct (Func_chain _ _ _ _ _ _ _) as [[st' [ch|e']]|] eqn:Hch; try done.
  intros [= <-].
  destruct (Func_chain_spec rangeOrder (vals ++ Values f) mappers fuel f []
              _ st' (Err e') (good_empty _) (not_elem_of_empty _) Hch)
    as (_ & _ & _ & _ & Herr).
  destruct (Herr e' eq_refl) as (t & Ht & ->). rewrite Hro in Ht.
  apply Func_args_elem in Ht as [Ht Hm]. by exists t.
Qed.

Lemma Func_Chain_error_names_target_argument_witness :
  ∃ t, t ∈ Args Ex.T5 ∧ existsb (matches t) ([] ++ Values Ex.T5) = false ∧
       unableToMap Ex.tString = unableToMap t.
Proof.
  apply (Func_Chain_error_names_target_argument id 3 Ex.T5 [Ex.Mbad] []).
  - intros l. reflexivity.
  - vm_compute. reflexivity.
Defined.

(** X8.  Adding mappers to the library never turns a target for which
    [Func.Chain] builds a chain into one for which it fails. *)
Theorem Func_Chain_larger_library
    rangeOrder rangeOrder' fuel fuel' f mappers mappers' vals c :
  (∀ l, rangeOrder l ≡ₚ l) → (∀ l, rangeOrder' l ≡ₚ l) →
  length mappers < fuel → length mappers' < fuel' →
  (∀ m, m ∈ mappers → m ∈ mappers') →
  Func_Chain rangeOrder fuel f mappers vals = Some (Built c) →
  ∃ c', Func_Chain rangeOrder' fuel' f mappers' vals = Some (Built c').
Proof.
  intros Hro Hro' Hfuel Hfuel' Hsub Hc.
  apply (Func_Chain_built_iff _ _ _ _ _ Hro' Hfuel').
  apply (Resolvable_mono (λ g, Func_args g (vals ++ Values f)) _ mappers).
  - intros g t Ht. by exists t.
  - done.
  - apply (Func_Chain_built_iff _ _ _ _ _ Hro Hfuel). by exists c.
Qed.

Lemma Func_Chain_larger_library_witness :
  ∃ c', Func_Chain id 4 Ex.T [Ex.Mbad; Ex.M1; Ex.M2] [] = Some (Built c').
Proof.
  apply (Func_Chain_larger_library id id 3 4 Ex.T [Ex.M1; Ex.M2]
           [Ex.Mbad; Ex.M1; Ex.M2] [] Ex.chainT).
  - intros l. reflexivity.
  - intros l. reflexivity.
  - simpl. lia.
  - simpl. lia.
  - intros m Hm. by right.
  - vm_compute. reflexivity.
Defined.

(** X9.  Passing more values never turns a target for which
    [Func.Chain] builds a chain into one for which it fails. *)
Theorem Func_Chain_more_values
    rangeOrder rangeOrder' fuel fuel' f mappers vals vals' c :
  (∀ l, rangeOrder l ≡ₚ l) → (∀ l, rangeOrder' l ≡ₚ l) →
  length mappers < fuel → length mappers < fuel' →
  (∀ v, v ∈ vals → v ∈ vals') →
  Func_Chain rangeOrder fuel f mappers vals = Some (Built c) →
  ∃ c', Func_Chain rangeOrder' fuel' f mappers vals' = Some (Built c').
Proof.
  intros Hro Hro' Hfuel Hfuel' Hsub Hc.
  apply (Func_Chain_built_iff _ _ _ _ _ Hro' Hfuel').
  apply (Resolvable_mono (λ g, Func_args g (vals ++ Values f)) _ mappers).
  - intros g t Ht.
    apply (Func_args_more_values g (vals ++ Values f) (vals' ++ Values f) t); [|done].
    intros v [Hv|Hv]%elem_of_app; apply elem_of_app; [left; by apply Hsub|by right].
  - done.
  - apply (Func_Chain_built_iff _ _ _ _ _ Hro Hfuel). by exists c.
Qed.

Lemma Func_Chain_more_values_witness :
  ∃ c', Func_Chain id 3 Ex.T [Ex.M1; Ex.M2] [Val 2 0] = Some (Built c').
Proof.
  apply (Func_Chain_more_values id id 3 3 Ex.T [Ex.M1; Ex.M2] [] [Val 2 0]
           Ex.chainT).
  - intros l. reflexivity.
  - intros l. reflexivity.
  - simpl. lia.
  - simpl. lia.
  - intros v Hv. by apply elem_of_nil in Hv.
  - vm_compute. reflexivity.
Defined.

(** Witnesses for the section on the sets and the shape of the chain. *)

Lemma Func_chain_example_returns :
  ∃ st' r,
    Func_chain id [] (mapperIndex [Ex.M1; Ex.M2]) 3 Ex.M2 [Ex.MZ]
      {| chainSet := ∅; pendingSet := ∅ |} = Some (st', r).
Proof.
  destruct (Func_chain_total id [] [Ex.M1; Ex.M2] 3 Ex.M2 [Ex.MZ]
              {| chainSet := ∅; pendingSet := ∅ |})
    as (st' & r & Heq & _).
  - apply good_empty.
  - apply not_elem_of_empty.
  - pose proof (offPath_le [Ex.M1; Ex.M2] ({[Ex.M2]} ∪ ∅)) as Hle.
    simpl in *. lia.
  - by exists st', r.
Qed.

Lemma Func_chain_restores_pending_witness :
  ∃ st' r,
    Func_chain id [] (mapperIndex [Ex.M1; Ex.M2]) 3 Ex.M2 [Ex.MZ]
      {| chainSet := ∅; pendingSet := ∅ |} = Some (st', r) ∧
    (∅ : gset Func) ⊆ chainSet st' ∧
    (Ex.M2 ∉ (∅ : gset Func) → pendingSet st' = ∅).
Proof.
  destruct Func_chain_example_returns as (st' & r & Heq).
  exists st', r. split; [exact Heq|].
  apply (Func_chain_restores_pending id [] [Ex.M1; Ex.M2] 3 Ex.M2 [Ex.MZ]
           {| chainSet := ∅; pendingSet := ∅ |} st' r Heq).
Defined.

Lemma Func_chain_extends_chain_witness :
  ∃ st' r,
    Func_chain id [] (mapperIndex [Ex.M1; Ex.M2]) 3 Ex.M2 [Ex.MZ]
      {| chainSet := ∅; pendingSet := ∅ |} = Some (st', r) ∧
    ∀ c, r = Ok c →
      ∃ mid, c = [Ex.MZ] ++ mid ++ [Ex.M2] ∧ ∀ g, g ∈ mid → g ∈ [Ex.M1; Ex.M2].
Proof.
  destruct Func_chain_example_returns as (st' & r & Heq).
  exists st', r. split; [exact Heq|]. intros c Hr. subst r.
  apply (Func_chain_extends_chain id [] [Ex.M1; Ex.M2] 3 Ex.M2 [Ex.MZ]
           {| chainSet := ∅; pendingSet := ∅ |} st' c Heq).
Defined.

Lemma Func_Chain_members_witness :
  values Ex.chainT = [] ++ Values Ex.T ∧
  ∃ mid, funcs Ex.chainT = mid ++ [Ex.T] ∧ ∀ g, g ∈ mid → g ∈ [Ex.M1; Ex.M2].
Proof.
  apply (Func_Chain_members id 3 Ex.T [Ex.M1; Ex.M2] [] Ex.chainT).
  vm_compute. reflexivity.
Defined.

Lemma Func_Chain_complete_functions_once_witness :
  NoDup (filter (λ g, Func_args g ([] ++ Values Ex.T) = [])
           [Ex.MZ; Ex.MX; Ex.MX; Ex.M2; Ex.T]).
Proof.
  apply (Func_Chain_complete_functions_once id 4 Ex.T [Ex.MX; Ex.M2; Ex.MZ] []
           {| funcs := [Ex.MZ; Ex.MX; Ex.MX; Ex.M2; Ex.T]; values := [] |}).
  vm_compute. reflexivity.
Defined.

(** X22.  [Func.Chain] builds a chain exactly for the targets that are
    resolvable: every argument the values do not match has a producer in
    the library, other than the target, that is resolvable in turn along
    a path without repetition.  Taking the first producer that works,
    without going back on earlier choices, loses no target. *)
Theorem Func_Chain_builds_iff_resolvable rangeOrder fuel f mappers vals :
  (∀ l, rangeOrder l ≡ₚ l) → length mappers < fuel →
  (∃ c, Func_Chain rangeOrder fuel f mappers vals = Some (Built c)) ↔
  Resolvable (λ g, Func_args g (vals ++ Values f)) mappers {[f]} f.
Proof.
  intros Hro Hfuel.
  destruct (Func_Chain_resolves rangeOrder fuel f mappers vals Hfuel)
    as (b & Hb & Hres & _).
  rewrite Hb, <- (Hres Hro). split; intros [c Hc]; exists c; congruence.
Qed.

Lemma Func_Chain_builds_iff_resolvable_witness :
  (∃ c, Func_Chain id 3 Ex.T5 [Ex.Mbad; Ex.Mgood] [] = Some (Built c)) ↔
  Resolvable (λ g, Func_args g ([] ++ Values Ex.T5)) [Ex.Mbad; Ex.Mgood]
    {[Ex.T5]} Ex.T5.
Proof.
  apply (Func_Chain_builds_iff_resolvable id 3 Ex.T5 [Ex.Mbad; Ex.Mgood] []).
  - intros l. reflexivity.
  - simpl. lia.
Defined.
(** ** Func.inputSet and Func.ChainInputSet: what the returned set holds *)

Lemma inputArgs_from check l missing pending missing' pending' :
  inputArgs check l missing pending = (missing', pending') →
  ∀ k u, pending' !! k = Some u → pending !! k = Some u ∨ u ∈ l.
Proof.
  revert missing pending.
  induction l as [|a l IH]; intros missing pending; simpl.
  - intros [= <- <-] k u Hk. by left.
  - case_bool_decide as Hpend.
    + intros Heq k u Hk. destruct (IH _ _ Heq k u Hk) as [?|?]; [by left|].
      right. by right.
    + destruct (check a); simpl.
      * intros Heq k u Hk. destruct (IH _ _ Heq k u Hk) as [Hins|?].
        -- destruct (decide (Key a = k)) as [<-|Hne].
           ++ rewrite lookup_insert_eq in Hins. injection Hins as <-.
              right. left.
           ++ rewrite lookup_insert_ne in Hins by done. by left.
        -- right. by right.
      * intros Heq k u Hk. destruct (IH _ _ Heq k u Hk) as [?|?]; [by left|].
        right. by right.
Qed.

Section InputFrom.
Variable mappers : list Func.
Variable check : Type_ → bool.

Section InputLoopFrom.
Variable rec : Func → gset Func → gmap nat Type_ →
               option (gset Func * option (gmap nat Type_)).
Hypothesis rec_from :
  ∀ m V input V' res,
    rec m V input = Some (V', Some res) → fromArgs mappers m input res.

Lemma inputMappers_from ms V missing pending V' res :
  (∀ m, m ∈ ms → m ∈ mappers) →
  inputMappers rec ms V missing pending = Some (V', Some res) →
  ∀ k u, res !! k = Some u →
    pending !! k = Some u ∨ ∃ m, m ∈ mappers ∧ u ∈ Args m.
Proof.
  revert V missing pending.
  induction ms as [|m ms IH]; intros V missing pending Hms; simpl; [done|].
  assert (∀ m', m' ∈ ms → m' ∈ mappers) as Hms' by (intros; apply Hms; by right).
  case_bool_decide as Hvis; [by apply IH|].
  case_bool_decide as Hmiss; simpl; [|by apply IH].
  destruct (rec m ({[m]} ∪ V) pending) as [[V1 [result|]]|] eqn:Hrec;
    [| by apply IH |done].
  assert (∀ k u, result !! k = Some u →
            pending !! k = Some u ∨ ∃ m0, m0 ∈ mappers ∧ u ∈ Args m0) as Hres.
  { intros k u Hk. destruct (rec_from _ _ _ _ _ Hrec k u Hk) as [?|[?|?]].
    - by left.
    - right. exists m. split; [apply Hms; left|done].
    - by right. }
  case_bool_decide as Hsize.
  - intros [= <- <-]. done.
  - intros Heq k u Hk. destruct (IH _ _ _ Hms' Heq k u Hk) as [?|?]; [|by right].
    by apply Hres.
Qed.
End InputLoopFrom.

Lemma Func_inputSet_from fuel f V input V' res :
  Func_inputSet mappers check fuel f V input = Some (V', Some res) →
  fromArgs mappers f input res.
Proof.
  revert f V input V' res.
  induction fuel as [|n IH]; intros f V input V' res; simpl; [done|].
  destruct (inputArgs check (Args f) ∅ input) as [missing pending] eqn:Hargs.
  pose proof (inputArgs_from _ _ _ _ _ _ Hargs) as Hfrom.
  case_bool_decide as Hsize.
  - intros [= <- <-] k u Hk. destruct (Hfrom k u Hk) as [?|?]; [by left|].
    right. by left.
  - intros Hloop k u Hk.
    destruct (inputMappers_from _ IH mappers _ _ _ _ _ ltac:(done) Hloop k u Hk)
      as [Hp|?]; [|right; by right].
    destruct (Hfrom k u Hp) as [?|?]; [by left|]. right. by left.
Qed.
End InputFrom.

Lemma ChainInputSet_elem mappers check rangeOrder fuel f L :
  (∀ l, rangeOrder l ≡ₚ l) →
  Func_ChainInputSet mappers check rangeOrder fuel f = Some (Some L) →
  ∃ V' typeMap,
    Func_inputSet mappers check fuel f ∅ ∅ = Some (V', Some typeMap) ∧
    L ≡ₚ (snd <$> map_to_list typeMap) ∧
    ∀ u, u ∈ L ↔ ∃ k, typeMap !! k = Some u.
Proof.
  intros Hro. unfold Func_ChainInputSet.
  destruct (Func_inputSet _ _ _ _ _ _) as [[V' [typeMap|]]|]; try done.
  intros [= <-]. exists V', typeMap. split; [done|]. split; [done|].
  intros u. rewrite Hro, list_elem_of_fmap. split.
  - intros ([k u'] & -> & Hk). exists k. by apply elem_of_map_to_list.
  - intros (k & Hk). exists (k, u). split; [done|]. by apply elem_of_map_to_list.
Qed.

Lemma accepted_keys check (p : gmap nat Type_) :
  accepted check p → Key <$> (snd <$> map_to_list p) = fst <$> map_to_list p.
Proof.
  intros Hacc. rewrite <- list_fmap_compose. apply list_fmap_ext.
  intros i [k u] Hi. simpl.
  apply list_elem_of_lookup_2, elem_of_map_to_list in Hi. by apply (Hacc k u).
Qed.

(** X10.  Every type in the list that [Func.ChainInputSet] returns
    passed the check function, and no two of them have the same key:
    the caller is only ever asked for types it said it can supply, each
    once. *)
Theorem Func_ChainInputSet_result_supplied mappers check rangeOrder fuel f L :
  (∀ l, rangeOrder l ≡ₚ l) →
  Func_ChainInputSet mappers check rangeOrder fuel f = Some (Some L) →
  (∀ t, t ∈ L → check t = true) ∧ NoDup (Key <$> L).
Proof.
  intros Hro HL.
  destruct (ChainInputSet_elem _ _ _ _ _ _ Hro HL) as (V' & typeMap & Heq & Hperm & Hin).
  destruct (Func_inputSet_spec mappers check fuel f ∅ ∅ V' _
              (accepted_empty check) Heq) as (_ & Hspec).
  destruct (Hspec typeMap eq_refl) as (Hacc & _).
  split.
  - intros t (k & Hk)%Hin. by apply (Hacc k t).
  - rewrite Hperm, (accepted_keys check) by done. apply NoDup_fst_map_to_list.
Qed.

Lemma Func_ChainInputSet_result_supplied_witness :
  (∀ t, t ∈ [Ex.tInt] → bool_decide (Key t = 1) = true) ∧
  NoDup (Key <$> [Ex.tInt]).
Proof.
  apply (Func_ChainInputSet_result_supplied [Ex.M2]
           (λ t, bool_decide (Key t = 1)) id 2 Ex.T2 [Ex.tInt]).
  - intros l. reflexivity.
  - vm_compute. reflexivity.
Defined.

(** X11.  Every type in the list that [Func.ChainInputSet] returns is an
    argument type of the target or of a library mapper. *)
Theorem Func_ChainInputSet_result_from_arguments
    mappers check rangeOrder fuel f L :
  (∀ l, rangeOrder l ≡ₚ l) →
  Func_ChainInputSet mappers check rangeOrder fuel f = Some (Some L) →
  ∀ t, t ∈ L → t ∈ Args f ∨ ∃ m, m ∈ mappers ∧ t ∈ Args m.
Proof.
  intros Hro HL t Ht.
  destruct (ChainInputSet_elem _ _ _ _ _ _ Hro HL) as (V' & typeMap & Heq & _ & Hin).
  apply Hin in Ht as (k & Hk).
  destruct (Func_inputSet_from _ _ _ _ _ _ _ _ Heq k t Hk) as [He|?]; [|done].
  by rewrite lookup_empty in He.
Qed.

Lemma Func_ChainInputSet_result_from_arguments_witness :
  Ex.tInt ∈ Args Ex.T2 ∨ ∃ m, m ∈ [Ex.M2] ∧ Ex.tInt ∈ Args m.
Proof.
  apply (Func_ChainInputSet_result_from_arguments [Ex.M2]
           (λ t, bool_decide (Key t = 1)) id 2 Ex.T2 [Ex.tInt]).
  - intros l. reflexivity.
  - vm_compute. reflexivity.
  - left.
Defined.

(** X12.  When the check function accepts every argument of the target,
    [Func.ChainInputSet] returns argument types of the target, one for
    each argument key, whatever the library holds: no mapper is
    consulted and a single unit of fuel is enough. *)
Theorem Func_ChainInputSet_all_supplied mappers check rangeOrder n f :
  (∀ l, rangeOrder l ≡ₚ l) →
  (∀ t, t ∈ Args f → check t = true) →
  ∃ L, Func_ChainInputSet mappers check rangeOrder (S n) f = Some (Some L) ∧
       (∀ u, u ∈ L → u ∈ Args f) ∧
       (∀ t, t ∈ Args f → ∃ u, u ∈ L ∧ Key u = Key t).
Proof.
  intros Hro Hall. unfold Func_ChainInputSet. simpl.
  destruct (inputArgs check (Args f) ∅ ∅) as [missing pending] eqn:Hargs.
  destruct (inputArgs_spec _ _ _ _ _ _ Hargs (accepted_empty check))
    as (Hacc & _ & _ & Hcov & Hsrc).
  pose proof (inputArgs_from _ _ _ _ _ _ Hargs) as Hfrom.
  assert (missing = ∅) as ->.
  { apply map_empty. intros k. apply eq_None_not_Some. intros Hk.
    destruct (Hsrc k Hk) as [Hk'|(t & Ht & _ & Hc)].
    - rewrite lookup_empty in Hk'. by destruct Hk'.
    - by rewrite (Hall t Ht) in Hc. }
  rewrite bool_decide_eq_true_2 by apply map_size_empty.
  eexists. split; [done|]. split.
  - intros u. rewrite Hro, list_elem_of_fmap. intros ([k u'] & -> & Hk).
    apply elem_of_map_to_list in Hk. destruct (Hfrom k u' Hk) as [He|?]; [|done].
    by rewrite lookup_empty in He.
  - intros t Ht. destruct (Hcov t Ht) as [[u Hu]|Hm].
    + exists u. split; [|by apply (Hacc _ _ Hu)].
      rewrite Hro. apply list_elem_of_fmap. exists (Key t, u).
      split; [done|]. by apply elem_of_map_to_list.
    + rewrite lookup_empty in Hm. by destruct Hm.
Qed.

Lemma Func_ChainInputSet_all_supplied_witness :
  ∃ L, Func_ChainInputSet [Ex.Mbad] (λ _, true) id 1 Ex.T = Some (Some L) ∧
       (∀ u, u ∈ L → u ∈ Args Ex.T) ∧
       (∀ t, t ∈ Args Ex.T → ∃ u, u ∈ L ∧ Key u = Key t).
Proof.
  apply (Func_ChainInputSet_all_supplied [Ex.Mbad] (λ _, true) id 0 Ex.T).
  - intros l. reflexivity.
  - intros t Ht. reflexivity.
Defined.

(** X13.  With an empty library and a check function that depends on
    the type key only, [Func.ChainInputSet] returns nil exactly when the
    check function rejects some argument of the target. *)
Theorem Func_ChainInputSet_empty_library check rangeOrder n f :
  keyRespecting check →
  Func_ChainInputSet [] check rangeOrder (S n) f = Some None ↔
  ∃ t, t ∈ Args f ∧ check t = false.
Proof.
  intros Hkr. unfold Func_ChainInputSet. simpl.
  destruct (inputArgs check (Args f) ∅ ∅) as [missing pending] eqn:Hargs.
  destruct (inputArgs_spec _ _ _ _ _ _ Hargs (accepted_empty check))
    as (Hacc & _ & _ & Hcov & Hsrc).
  case_bool_decide as Hsize; simpl.
  - split; [done|]. intros (t & Ht & Hc). exfalso.
    apply map_size_empty_iff in Hsize. subst missing.
    destruct (Hcov t Ht) as [[u Hu]|Hm].
    + destruct (Hacc _ _ Hu) as [Hk Hcu]. by rewrite (Hkr t u (eq_sym Hk)), Hcu in Hc.
    + rewrite lookup_empty in Hm. by destruct Hm.
  - split; [|done]. intros _.
    destruct (map_choose_or_empty missing) as [(k & u & Hk) | ->].
    + destruct (Hsrc k ltac:(by eexists)) as [Hk'|(t & Ht & _ & Hc)].
      * rewrite lookup_empty in Hk'. by destruct Hk'.
      * by exists t.
    + by rewrite map_size_empty in Hsize.
Qed.

Lemma keyRespecting_int : keyRespecting (λ t, bool_decide (Key t = 1)).
Proof. intros t u Hk. by rewrite Hk. Qed.

Lemma Func_ChainInputSet_empty_library_witness :
  Func_ChainInputSet [] (λ t, bool_decide (Key t = 1)) id 1 Ex.T = Some None ↔
  ∃ t, t ∈ Args Ex.T ∧ bool_decide (Key t = 1) = false.
Proof.
  apply (Func_ChainInputSet_empty_library (λ t, bool_decide (Key t = 1)) id 0 Ex.T).
  apply keyRespecting_int.
Defined.

(** X14.  When [Func.Chain] builds a chain from some values, then
    [Func.ChainInputSet], asked with the check function "some value has
    this type", returns a list and not nil, and every type of that list
    is the type of one of the values. *)
Theorem Func_Chain_then_ChainInputSet
    rangeOrder rangeOrder' fuel fuel' f mappers vals c :
  (∀ l, rangeOrder l ≡ₚ l) → (∀ l, rangeOrder' l ≡ₚ l) →
  length mappers < fuel → length mappers < fuel' →
  Func_Chain rangeOrder fuel f mappers vals = Some (Built c) →
  ∃ L, Func_ChainInputSet mappers
         (λ t, existsb (matches t) (vals ++ Values f)) rangeOrder' fuel' f =
         Some (Some L) ∧
       ∀ t, t ∈ L → existsb (matches t) (vals ++ Values f) = true.
Proof.
  intros Hro Hro' Hfuel Hfuel' Hc.
  set (check := λ t, existsb (matches t) (vals ++ Values f)).
  assert (Resolvable (unsupplied check) mappers ∅ f) as HR.
  { apply (Resolvable_mono (λ g, Func_args g (vals ++ Values f)) _ mappers).
    - intros g t [Hchk Ht]%list_elem_of_filter. by apply Func_args_covers.
    - done.
    - apply (Resolvable_anti _ _ {[f]}); [|apply empty_subseteq].
      apply (Func_Chain_built_iff _ _ _ _ _ Hro Hfuel). by exists c. }
  destruct (Func_inputSet_total mappers check fuel' f ∅ ∅)
    as (V' & r & Heq & Htotal).
  { apply accepted_empty. }
  { pose proof (offPath_le mappers ∅). lia. }
  destruct (Htotal HR) as [typeMap ->].
  assert (Func_ChainInputSet mappers check rangeOrder' fuel' f =
            Some (Some (rangeOrder' (snd <$> map_to_list typeMap)))) as HL.
  { unfold Func_ChainInputSet. by rewrite Heq. }
  eexists. split; [exact HL|].
  destruct (Func_inputSet_spec mappers check fuel' f ∅ ∅ V' _
              (accepted_empty check) Heq) as (_ & Hspec).
  destruct (Hspec typeMap eq_refl) as (Hacc & _).
  intros t Ht. rewrite Hro' in Ht.
  apply list_elem_of_fmap in Ht as ([k u] & -> & Hk).
  apply elem_of_map_to_list in Hk. by apply (Hacc k u).
Qed.

Lemma Func_Chain_then_ChainInputSet_witness :
  ∃ L, Func_ChainInputSet [Ex.M2]
         (λ t, existsb (matches t) ([Val 1 0] ++ Values Ex.T2)) id 2 Ex.T2 =
         Some (Some L) ∧
       ∀ t, t ∈ L → existsb (matches t) ([Val 1 0] ++ Values Ex.T2) = true.
Proof.
  apply (Func_Chain_then_ChainInputSet id id 2 2 Ex.T2 [Ex.M2] [Val 1 0]
           {| funcs := [Ex.M2; Ex.T2]; values := [Val 1 0] |}).
  - intros l. reflexivity.
  - intros l. reflexivity.
  - simpl. lia.
  - simpl. lia.
  - vm_compute. reflexivity.
Defined.

Lemma inputArgs_subseteq check l missing pending missing' pending' :
  inputArgs check l missing pending = (missing', pending') →
  pending ⊆ pending'.
Proof.
  revert missing pending.
  induction l as [|a l IH]; intros missing pending; simpl.
  - by intros [= <- <-].
  - case_bool_decide as Hpend; [apply IH|].
    destruct (check a); simpl; [|apply IH].
    intros Heq. etrans; [|exact (IH _ _ Heq)].
    apply insert_subseteq. by apply eq_None_not_Some.
Qed.

Lemma inputMappers_frame rec ms V missing pending V' r :
  (∀ m V0 input V1 r0,
     rec m V0 input = Some (V1, r0) →
     V1 = V0 ∧ ∀ res, r0 = Some res → input ⊆ res) →
  inputMappers rec ms V missing pending = Some (V', r) →
  V' = V ∧ ∀ res, r = Some res → pending ⊆ res.
Proof.
  intros Hrec. revert missing pending.
  induction ms as [|m ms IH]; intros missing pending; simpl.
  - intros [= <- <-]. split; [done|]. by intros res.
  - case_bool_decide as Hvis; [apply IH|].
    case_bool_decide as Hmiss; simpl; [|apply IH].
    destruct (rec m ({[m]} ∪ V) pending) as [[V1 r1]|] eqn:Hcall; [|done].
    destruct (Hrec _ _ _ _ _ Hcall) as (-> & Hsub).
    rewrite (visited_restore m V Hvis).
    destruct r1 as [result|]; [|apply IH].
    specialize (Hsub result eq_refl).
    case_bool_decide as Hsize.
    + intros [= <- <-]. split; [done|]. by intros res [= <-].
    + intros Heq. destruct (IH _ _ Heq) as (-> & Hres). split; [done|].
      intros res Hr. etrans; [exact Hsub|]. by apply Hres.
Qed.

(** X23.  [Func.inputSet] hands the [visited] set back exactly as it
    received it, on success and on failure, and a map it returns
    contains every entry of the input map.  This holds for every
    visited set, every input map and every check function. *)
Theorem Func_inputSet_restores_visited mappers check fuel f V input V' r :
  Func_inputSet mappers check fuel f V input = Some (V', r) →
  V' = V ∧ ∀ res, r = Some res → input ⊆ res.
Proof.
  revert f V input V' r.
  induction fuel as [|n IH]; intros f V input V' r; simpl; [done|].
  destruct (inputArgs check (Args f) ∅ input) as [missing pending] eqn:Hargs.
  pose proof (inputArgs_subseteq _ _ _ _ _ _ Hargs) as Hsub.
  case_bool_decide as Hsize.
  - intros [= <- <-]. split; [done|]. by intros res [= <-].
  - intros Hloop.
    destruct (inputMappers_frame _ _ _ _ _ _ _ IH Hloop) as (-> & Hres).
    split; [done|]. intros res Hr. etrans; [exact Hsub|]. by apply Hres.
Qed.

(** A run with a mapper already visited and an input map whose entry
    did not pass the check: [Mbad] is skipped, [Mgood] supplies the
    string. *)
Lemma Func_inputSet_example_returns :
  match Func_inputSet [Ex.Mbad; Ex.Mgood] (λ _, false) 2 Ex.T5
          {[Ex.Mbad]} {[7 := Ex.tFloat]} with
  | Some (_, Some _) => true
  | _ => false
  end = true.
Proof. vm_compute. reflexivity. Qed.

Lemma Func_inputSet_restores_visited_witness :
  ∃ V' res,
    Func_inputSet [Ex.Mbad; Ex.Mgood] (λ _, false) 2 Ex.T5
      {[Ex.Mbad]} {[7 := Ex.tFloat]} = Some (V', Some res) ∧
    V' = {[Ex.Mbad]} ∧
    ∀ res', Some res = Some res' → ({[7 := Ex.tFloat]} : gmap nat Type_) ⊆ res'.
Proof.
  pose proof Func_inputSet_example_returns as Hsome.
  destruct (Func_inputSet [Ex.Mbad; Ex.Mgood] (λ _, false) 2 Ex.T5
              {[Ex.Mbad]} {[7 := Ex.tFloat]}) as [[V' [res|]]|] eqn:Heq;
    [|discriminate Hsome|discriminate Hsome].
  exists V', res. split; [reflexivity|].
  apply (Func_inputSet_restores_visited [Ex.Mbad; Ex.Mgood] (λ _, false) 2 Ex.T5
           {[Ex.Mbad]} {[7 := Ex.tFloat]} V' (Some res) Heq).
Defined.
(** ** ChainTarget: rejected entries and the target of the result *)

Lemma ChainTarget_loop_rejected rangeOrder fuel check ms mappers vals :
  (∀ m, m ∈ ms → check (Out m) = false) →
  ChainTarget_loop rangeOrder fuel check ms mappers vals = Some None.
Proof.
  induction ms as [|m ms IH]; intros Hall; simpl; [done|].
  rewrite (Hall m) by left. simpl. apply IH. intros; apply Hall; by right.
Qed.

(** X15.  When the check function rejects the output type of every
    library entry (the empty library included), [ChainTarget] returns
    nil without a single call of [Func.Chain]: no fuel at all is
    needed. *)
Theorem ChainTarget_all_rejected rangeOrder fuel check mappers vals :
  (∀ m, m ∈ mappers → check (Out m) = false) →
  ChainTarget rangeOrder fuel check mappers vals = Some None.
Proof. apply ChainTarget_loop_rejected. Qed.

Lemma ChainTarget_all_rejected_witness :
  ChainTarget id 0 (λ t, bool_decide (Key t = 3)) [Ex.M1; Ex.M2] [] = Some None.
Proof.
  apply (ChainTarget_all_rejected id 0 (λ t, bool_decide (Key t = 3))
           [Ex.M1; Ex.M2] []).
  intros m Hm. apply list_elem_of_In in Hm. simpl in Hm.
  destruct Hm as [<-|[<-|[]]]; reflexivity.
Defined.

(** X16.  A chain returned by [ChainTarget] ends with a library entry
    whose output type passed the check, holds only library entries, and
    has as value pool the values passed in followed by the bound values
    of that entry. *)
Theorem ChainTarget_result_from_library rangeOrder fuel check mappers vals c :
  ChainTarget rangeOrder fuel check mappers vals = Some (Some c) →
  ∃ m, m ∈ mappers ∧ check (Out m) = true ∧
       last (funcs c) = Some m ∧ values c = vals ++ Values m ∧
       ∀ g, g ∈ funcs c → g ∈ mappers.
Proof.
  intros (m & Hm & Hcheck & Hc)%ChainTarget_loop_accepts.
  destruct (Func_Chain_shape _ _ _ _ _ _ Hc) as (Hv & mid & Hf & Hmid & _).
  exists m. split; [done|]. split; [done|]. split; [by apply Func_Chain_last in Hc|].
  split; [done|]. rewrite Hf.
  intros g [Hg|Hg%list_elem_of_singleton]%elem_of_app; [by apply Hmid|by subst g].
Qed.

Lemma ChainTarget_result_from_library_witness :
  ∃ m, m ∈ [Ex.M1; Ex.M2] ∧ Ex2.wantsString (Out m) = true ∧
       last [Ex.M1; Ex.M2] = Some m ∧ [] = [] ++ Values m ∧
       ∀ g, g ∈ [Ex.M1; Ex.M2] → g ∈ [Ex.M1; Ex.M2].
Proof.
  apply (ChainTarget_result_from_library id 3 Ex2.wantsString
           [Ex.M1; Ex.M2] [] {| funcs := [Ex.M1; Ex.M2]; values := [] |}).
  vm_compute. reflexivity.
Defined.

(** ** The mapper index *)

Lemma mapperIndex_lookup_is_Some mappers k :
  is_Some (mapperIndex mappers !! k) ↔ ∃ m, m ∈ mappers ∧ Key (Out m) = k.
Proof.
  induction mappers as [|m l IH] using rev_ind.
  - unfold mapperIndex. simpl. rewrite lookup_empty. split.
    + by intros [? ?].
    + intros (m & Hm & _). by apply elem_of_nil in Hm.
  - rewrite mapperIndex_snoc. destruct (decide (Key (Out m) = k)) as [<-|Hne].
    + rewrite lookup_insert_eq. split; [|by eexists].
      intros _. exists m. split; [|done]. apply elem_of_app. right. left.
    + rewrite lookup_insert_ne by done. rewrite IH. split.
      * intros (m' & Hm' & Hk). exists m'. split; [|done]. apply elem_of_app. by left.
      * intros (m' & [Hm'|Hm'%list_elem_of_singleton]%elem_of_app & Hk).
        -- by exists m'.
        -- by subst m'.
Qed.

(** X17.  The index built by [Func.Chain] maps a key to exactly the
    library mappers with that output key, in library order; a key is
    absent exactly when no mapper produces it, so a present key never
    holds an empty list. *)
Theorem mapperIndex_by_output_key mappers k :
  mapperIndex mappers !!! k = filter (λ m, Key (Out m) = k) mappers ∧
  (mapperIndex mappers !! k = None ↔ ∀ m, m ∈ mappers → Key (Out m) ≠ k) ∧
  (∀ l, mapperIndex mappers !! k = Some l → l ≠ []).
Proof.
  split; [apply mapperIndex_lookup|]. split.
  - rewrite eq_None_not_Some, mapperIndex_lookup_is_Some. split.
    + intros Hno m Hm Hk. apply Hno. by exists m.
    + intros Hall (m & Hm & Hk). by apply (Hall m).
  - intros l Hl ->.
    destruct (proj1 (mapperIndex_lookup_is_Some mappers k) ltac:(by eexists))
      as (m & Hm & Hk).
    pose proof (proj2 (elem_of_mapperIndex mappers k m) (conj Hm Hk)) as Hin.
    rewrite lookup_total_alt, Hl in Hin. simpl in Hin. by apply elem_of_nil in Hin.
Qed.

(** ** Chain.Call: what holds of every run *)

Section CallMore.
Variable FuncCall : Func → list iface → iface * option string.

Lemma callLoop_keeps all fs res vals trace :
  funcs (after (callLoop FuncCall all fs res vals trace)) = all ∧
  vals `prefix_of` values (after (callLoop FuncCall all fs res vals trace)) ∧
  (∃ ran, executed (callLoop FuncCall all fs res vals trace) = trace ++ ran ∧
          ran `prefix_of` fs) ∧
  (∀ v, v ∈ values (after (callLoop FuncCall all fs res vals trace)) →
        v ∈ vals ∨ IsValid v = true).
Proof.
  revert res vals trace.
  induction fs as [|f fs IH]; intros res vals trace; simpl.
  - split; [done|]. split; [done|]. split; [|by left].
    exists []. by rewrite (right_id_L [] (++)).
  - destruct (FuncCall f vals) as [r [e|]]; simpl.
    + split; [done|]. split; [done|]. split; [|by left].
      exists [f]. split; [done|]. by apply prefix_cons, prefix_nil.
    + destruct (IH r (if IsValid r then vals ++ [r] else vals) (trace ++ [f]))
        as (Hf & Hp & (ran & Hex & Hran) & Hval).
      split; [done|]. split; [|split].
      * etrans; [|exact Hp]. destruct (IsValid r); [by apply prefix_app_r|done].
      * exists (f :: ran). split; [by rewrite Hex, <- (assoc_L (++))|].
        by apply prefix_cons.
      * intros v Hv. destruct (Hval v Hv) as [Hin|?]; [|by right].
        destruct (IsValid r) eqn:Hr; [|by left].
        apply elem_of_app in Hin as [?|Hin%list_elem_of_singleton]; [by left|].
        right. by subst v.
Qed.

(** X18.  Whatever the functions do, [Chain.Call] leaves [funcs]
    untouched, only ever appends to the value pool, appends no nil
    value, and has executed an initial segment of [funcs] in order. *)
Theorem Chain_Call_pool_only_grows c :
  funcs (after (Chain_Call FuncCall c)) = funcs c ∧
  values c `prefix_of` values (after (Chain_Call FuncCall c)) ∧
  executed (Chain_Call FuncCall c) `prefix_of` funcs c ∧
  (∀ v, v ∈ values (after (Chain_Call FuncCall c)) →
        v ∈ values c ∨ IsValid v = true).
Proof.
  unfold Chain_Call.
  destruct (callLoop_keeps (funcs c) (funcs c) Nil (values c) [])
    as (Hf & Hp & (ran & Hex & Hran) & Hval).
  split; [done|]. split; [done|]. split; [by rewrite Hex|done].
Qed.

Lemma allSucceed_or_first_failure fs vals :
  allSucceed FuncCall fs vals ∨
  ∃ pre f post e, fs = pre ++ f :: post ∧ allSucceed FuncCall pre vals ∧
                  (FuncCall f (poolAfter FuncCall pre vals)).2 = Some e.
Proof.
  revert vals. induction fs as [|g fs IH]; intros vals.
  - left. apply allSucceed_nil.
  - destruct (FuncCall g vals) as [r err] eqn:Hg. destruct err as [e|].
    + right. exists [], g, fs, e. split; [done|]. split; [apply allSucceed_nil|].
      simpl. by rewrite Hg.
    + destruct (IH (push vals r)) as [Hall|(pre & f & post & e & -> & Hpre & Hf)].
      * left. intros pre h post Heq. destruct pre as [|x pre]; simplify_eq/=.
        -- by rewrite Hg.
        -- rewrite Hg. simpl. by apply (Hall pre h post).
      * right. exists (g :: pre), f, post, e. split; [done|]. split.
        -- intros pre' h post' Heq. destruct pre' as [|x pre']; simplify_eq/=.
           ++ by rewrite Hg.
           ++ rewrite Hg. simpl. by apply (Hpre pre' h post').
        -- simpl. by rewrite Hg.
Qed.

(** X19.  The outcome of [Chain.Call] tells what happened.  A nil error
    means that every function ran without error and the pool holds all
    their valid results; an error [e] means that the result is nil and
    that some function, reached after all functions before it had run
    without error, returned [e] and was the last one executed. *)
Theorem Chain_Call_outcome c :
  ((returned (Chain_Call FuncCall c)).2 = None →
   allSucceed FuncCall (funcs c) (values c) ∧
   executed (Chain_Call FuncCall c) = funcs c ∧
   values (after (Chain_Call FuncCall c)) =
     poolAfter FuncCall (funcs c) (values c)) ∧
  (∀ e, (returned (Chain_Call FuncCall c)).2 = Some e →
     (returned (Chain_Call FuncCall c)).1 = Nil ∧
     ∃ pre f post,
       funcs c = pre ++ f :: post ∧
       allSucceed FuncCall pre (values c) ∧
       (FuncCall f (poolAfter FuncCall pre (values c))).2 = Some e ∧
       executed (Chain_Call FuncCall c) = pre ++ [f]).
Proof.
  unfold Chain_Call. destruct c as [fs vs]; simpl.
  destruct (allSucceed_or_first_failure fs vs)
    as [Hall|(pre & f & post & e & -> & Hpre & Hf)].
  - rewrite (callLoop_success _ _ _ _ _ _ Hall). simpl. split; [done|]. by intros e.
  - rewrite (callLoop_fail _ _ _ _ _ _ _ _ _ Hpre Hf). simpl. split; [done|].
    intros e' [= <-]. split; [done|]. by exists pre, f, post.
Qed.
End CallMore.

Lemma Chain_Call_outcome_witness :
  (returned (Chain_Call Ex2.call Ex2.chainZXT)).1 = Nil ∧
  ∃ pre f post,
    funcs Ex2.chainZXT = pre ++ f :: post ∧
    allSucceed Ex2.call pre (values Ex2.chainZXT) ∧
    (Ex2.call f (poolAfter Ex2.call pre (values Ex2.chainZXT))).2 =
      Some "boom"%string ∧
    executed (Chain_Call Ex2.call Ex2.chainZXT) = pre ++ [f].
Proof.
  apply (proj2 (Chain_Call_outcome Ex2.call Ex2.chainZXT) "boom"%string).
  vm_compute. reflexivity.
Defined.

(** ** Chain.String *)

Lemma string_app_assoc (s1 s2 s3 : string) :
  ((s1 +:+ s2) +:+ s3 = s1 +:+ s2 +:+ s3)%string.
Proof.
  induction s1 as [|a s1 IH]; [done|].
  change (String a ((s1 +:+ s2) +:+ s3) = String a (s1 +:+ s2 +:+ s3))%string.
  by rewrite IH.
Qed.

Lemma Join_cons s rest sep :
  rest ≠ [] → strings_Join (s :: rest) sep = (s +:+ sep +:+ strings_Join rest sep)%string.
Proof. by destruct rest. Qed.

Lemma Join_app l1 l2 sep :
  l1 ≠ [] → l2 ≠ [] →
  strings_Join (l1 ++ l2) sep = (strings_Join l1 sep +:+ sep +:+ strings_Join l2 sep)%string.
Proof.
  intros H1 H2. induction l1 as [|s l1 IH]; [done|].
  destruct l1 as [|s' l1].
  - simpl. by destruct l2.
  - rewrite <- app_comm_cons, Join_cons by done.
    rewrite IH by done. rewrite (Join_cons s (s' :: l1)) by done.
    by rewrite !string_app_assoc.
Qed.

Section StringFacts.
Variable FuncString : Func → string.

Lemma labelLoop_fills fs pre blk post :
  length blk = length fs →
  labelLoop FuncString fs (length pre) (pre ++ blk ++ post) =
    pre ++ (FuncString <$> fs) ++ post.
Proof.
  revert pre blk. induction fs as [|f fs IH]; intros pre blk Hlen; simpl.
  - by destruct blk.
  - destruct blk as [|b blk]; [done|]. simpl in Hlen.
    rewrite insert_app_r_alt by done. rewrite Nat.sub_diag. simpl.
    specialize (IH (pre ++ [FuncString f]) blk ltac:(lia)).
    rewrite length_app in IH. simpl in IH. rewrite Nat.add_1_r in IH.
    rewrite <- !(assoc_L (++)) in IH. exact IH.
Qed.

Lemma Chain_String_labels c :
  Chain_String FuncString c = strings_Join (FuncString <$> funcs c) " => "%string.
Proof.
  unfold Chain_String. simpl.
  pose proof (labelLoop_fills (funcs c) []
                (replicate (length (funcs c)) ""%string) []) as H.
  simpl in H. rewrite !(right_id_L [] (++)) in H. rewrite H; [done|].
  apply length_replicate.
Qed.

(** X20.  [Chain.String] is the labels of the functions, in chain
    order, joined by " => ": every slot of the label slice is written.
    So the description of a chain without functions is empty, that of a
    chain of one function is the label of the function, and that of a
    chain made of two non-empty parts is the description of the first
    part, the separator, and the description of the second part. *)
Theorem Chain_String_joins_labels c :
  Chain_String FuncString c = strings_Join (FuncString <$> funcs c) " => "%string ∧
  (funcs c = [] → Chain_String FuncString c = ""%string) ∧
  (∀ f, funcs c = [f] → Chain_String FuncString c = FuncString f) ∧
  (∀ fs gs, funcs c = fs ++ gs → fs ≠ [] → gs ≠ [] →
     Chain_String FuncString c =
       (Chain_String FuncString {| funcs := fs; values := values c |} +:+ " => " +:+
        Chain_String FuncString {| funcs := gs; values := values c |})%string).
Proof.
  split; [apply Chain_String_labels|]. split; [|split].
  - intros Hc. by rewrite Chain_String_labels, Hc.
  - intros f Hc. by rewrite Chain_String_labels, Hc.
  - intros fs gs Hc Hfs Hgs. rewrite !Chain_String_labels, Hc. simpl.
    rewrite fmap_app. apply Join_app.
    + by destruct fs.
    + by destruct gs.
Qed.

(** X21.  The description of a chain built by [Func.Chain] ends with the
    label of the target, and is that label alone when the target misses
    nothing. *)
Theorem Chain_String_ends_with_target rangeOrder fuel f mappers vals c :
  Func_Chain rangeOrder fuel f mappers vals = Some (Built c) →
  (∃ s, Chain_String FuncString c = (s +:+ FuncString f)%string) ∧
  (Func_args f (vals ++ Values f) = [] → Chain_String FuncString c = FuncString f).
Proof.
  intros Hc. split.
  - destruct (Func_Chain_shape _ _ _ _ _ _ Hc) as (_ & mid & Hf & _).
    rewrite Chain_String_labels, Hf, fmap_app. simpl.
    destruct mid as [|g mid]; [by exists ""%string|].
    rewrite Join_app by done. simpl.
    eexists. by rewrite <- !string_app_assoc.
  - intros Hnil. unfold Func_Chain in Hc. rewrite Hnil in Hc. simpl in Hc.
    injection Hc as <-. by rewrite Chain_String_labels.
Qed.
End StringFacts.

Lemma Chain_String_joins_labels_witness :
  Chain_String Ex2.label {| funcs := [Ex.M1]; values := [] |} = "one"%string ∧
  Chain_String Ex2.label Ex.chainT =
    (Chain_String Ex2.label {| funcs := [Ex.M1]; values := values Ex.chainT |}
     +:+ " => " +:+
     Chain_String Ex2.label {| funcs := [Ex.M2; Ex.T]; values := values Ex.chainT |})%string.
Proof.
  split.
  - apply (proj1 (proj2 (proj2 (Chain_String_joins_labels Ex2.label
                                   {| funcs := [Ex.M1]; values := [] |})))
             Ex.M1).
    reflexivity.
  - apply (proj2 (proj2 (proj2 (Chain_String_joins_labels Ex2.label Ex.chainT)))
             [Ex.M1] [Ex.M2; Ex.T]).
    + reflexivity.
    + discriminate.
    + discriminate.
Defined.

Lemma Chain_String_ends_with_target_witness :
  (∃ s, Chain_String Ex2.label Ex.chainT = (s +:+ Ex2.label Ex.T)%string) ∧
  (Func_args Ex.T ([] ++ Values Ex.T) = [] →
   Chain_String Ex2.label Ex.chainT = Ex2.label Ex.T).
Proof.
  apply (Chain_String_ends_with_target Ex2.label id 3 Ex.T [Ex.M1; Ex.M2] []
           Ex.chainT).
  vm_compute. reflexivity.
Defined.

Example Chain_String_example :
  Chain_String Ex2.label Ex.chainT = "one => other => target"%string.
Proof. vm_compute. reflexivity. Qed.

Example Chain_Call_skips_nil_result :
  Chain_Call Ex2.call Ex2.chainZX =
    {| returned := (Val 1 7, None);
       after := {| funcs := [Ex.MZ; Ex.MX; Ex.M1];
                   values := [Val 9 9; Val 4 1; Val 1 7] |};
       executed := [Ex.MZ; Ex.MX; Ex.M1] |}.
Proof. vm_compute. reflexivity. Qed.
